(** * PoinZ backend: the command processor

    A shallow embedding of [commandProcessor.js] (the seven-stage command
    pipeline behind a sequence queue), of the [setUsername] command handler
    and of the client-side [joinedRoom] reducer exercised by the reducer
    tests, together with the properties the design document states about
    them.

    Conventions of the embedding
    - JS values are the inductive [value]; an [Immutable.Map] (a room) is a
      [gmap string value]; a JS object used as a registry is the [gmap] of
      its own entries, and a read [registry[name]] also finds the members
      the object inherits from [Object.prototype];
    - a synchronous JS call that may throw returns a [completion];
    - a promise is a [task]: a tree whose inner nodes are the interactions
      with the outside world (store, uuid generator, clock) and whose leaves
      are the settlement of the promise ([Ret] fulfils, [Throw] rejects);
    - the mutable [context] object of a job is threaded explicitly;
    - every invocation of a collaborator is recorded in a call log, so that
      "is invoked with" and "is never invoked" are statements about the log. *)

From stdpp Require Import gmap strings list fin_maps pretty sorting.
From Stdlib Require Import ZArith Lia.

Set Warnings "-register-all".
Set Default Proof Using "Type".

(** ** JS values, errors, commands and events *)

Inductive value : Type :=
| VUndefined
| VBool (b : bool)
| VNum (z : Z)
| VStr (s : string)
| VMap (m : gmap string value).

(** A room is an [Immutable.Map] from field names to values. *)
Abbreviation room := (gmap string value).

(** An error object: [name], [message] and [stack]. *)
Record error : Type := mkError {
  err_name : string;
  err_message : string;
  err_stack : string
}.

(** [new Error(msg)]; only the first line of the captured stack is kept,
    the frames below it are not part of the model. *)
Definition new_Error (msg : string) : error :=
  mkError "Error" msg ("Error: " +:+ msg).

(** The error the runtime raises when a property of [undefined] is read. *)
Definition new_TypeError (msg : string) : error :=
  mkError "TypeError" msg ("TypeError: " +:+ msg).

Record command : Type := mkCommand {
  cmd_id : string;
  cmd_name : string;
  cmd_roomId : option string;   (* undefined for room-creating commands *)
  cmd_payload : value
}.

(** The double-quote character, as a string. *)
Definition dquote : string := String (Ascii.ascii_of_nat 34) EmptyString.

(** String concatenation with a possibly undefined operand. *)
Definition js_str (o : option string) : string :=
  match o with Some s => s | None => "undefined" end.

(** [function PreconditionError(err, cmd)] *)
Definition PreconditionError (err : error) (cmd : command) : error :=
  {| err_stack := err_stack err;
     err_name := "PreconditionError";
     err_message :=
       "Precondition Error during " +:+ dquote +:+ cmd_name cmd +:+ dquote +:+ ": "
         +:+ err_message err |}.

(** The event object that is sent back to the clients. *)
Record event : Type := mkEvent {
  ev_id : string;
  ev_userId : option string;
  ev_correlationId : string;
  ev_name : string;
  ev_roomId : option value;      (* updatedRoom.get('id') *)
  ev_payload : value
}.

(** ** Synchronous completions and promises *)

(** Result of a synchronous call: it returns or it throws. *)
Inductive completion (A : Type) : Type :=
| Normal (a : A)
| Abrupt (e : error).
Arguments Normal {A} a.
Arguments Abrupt {A} e.

(** State of a settled promise. *)
Inductive settled (A : Type) : Type :=
| Fulfilled (a : A)
| Rejected (e : error).
Arguments Fulfilled {A} a.
Arguments Rejected {A} e.

(** Invocations of collaborators, as recorded in the call log. *)
Inductive call : Type :=
| CallGetRoomById (roomId : option string)
| CallSaveRoom (r : room)
| CallPreCondition (r : option room) (cmd : command) (userId : option string)
| CallFn (r : room) (cmd : command)
| CallEventHandler (eventName : string) (currentRoom : room) (eventPayload : value).

(** A promise chain in progress.  [GetRoomById] and [SaveRoom] are the two
    asynchronous round-trips to the store (a rejection of the store's promise
    rejects the whole chain, there is no handler in between); [Uuid] and
    [GetTime] read the uuid generator and the clock; [Trace] records a call. *)
Inductive task (A : Type) : Type :=
| Ret (a : A)
| Throw (e : error)
| GetRoomById (roomId : option string) (k : option room → task A)
| SaveRoom (r : room) (k : unit → task A)
| Uuid (k : string → task A)
| GetTime (k : Z → task A)
| Trace (c : call) (k : task A).
Arguments Ret {A} a.
Arguments Throw {A} e.
Arguments GetRoomById {A} roomId k.
Arguments SaveRoom {A} r k.
Arguments Uuid {A} k.
Arguments GetTime {A} k.
Arguments Trace {A} c k.

(** [p.then(cb)]: [cb] runs once [p] is fulfilled; a rejection skips it. *)
Fixpoint then_ {A B : Type} (p : task A) (cb : A → task B) : task B :=
  match p with
  | Ret a => cb a
  | Throw e => Throw e
  | GetRoomById i k => GetRoomById i (λ r, then_ (k r) cb)
  | SaveRoom r k => SaveRoom r (λ u, then_ (k u) cb)
  | Uuid k => Uuid (λ i, then_ (k i) cb)
  | GetTime k => GetTime (λ t, then_ (k t) cb)
  | Trace c k => Trace c (then_ k cb)
  end.

Notation "p 'THEN' cb" := (then_ p cb) (at level 50, left associativity).

(** A synchronous call made inside a promise callback or executor: a thrown
    exception rejects the promise. *)
Definition settle {A : Type} (c : completion A) : task A :=
  match c with
  | Normal a => Ret a
  | Abrupt e => Throw e
  end.

(** [new Promise(resolve => resolve(x))] where evaluating [x] may throw. *)
Definition new_Promise {A : Type} (executor : completion A) : task A :=
  settle executor.

(** ** Command handlers *)

(** What a command handler function does when it is invoked: a sequence of
    [room.applyEvent(name, payload)] calls that ends by returning or by
    throwing.  An exception raised by [applyEvent] leaves the handler (the
    handlers of the repository contain no [try]). *)
Inductive script : Type :=
| Return
| Raise (e : error)
| ApplyEvent (eventName : string) (eventPayload : value) (rest : script).

Record commandHandler : Type := mkHandler {
  existingRoom : bool;
  preCondition : option (option room → command → option string → completion unit);
  fn : room → command → script
}.

(** An event handler (reducer): [(room, payload) => updatedRoom]. *)
Abbreviation eventHandler := (room → value → completion room).

(** ** Reading a handler registry

    Both registries are plain objects keyed by name, and the processor reads
    them with [registry[name]].  Such a read yields the entry registered
    under the name and, when there is none, the member of that name which
    every plain object inherits from [Object.prototype]; it yields
    [undefined] only for a name that is neither. *)
Definition objectPrototype : list string :=
  ["constructor"; "toString"; "toLocaleString"; "valueOf"; "hasOwnProperty";
   "isPrototypeOf"; "propertyIsEnumerable"; "__defineGetter__";
   "__defineSetter__"; "__lookupGetter__"; "__lookupSetter__"; "__proto__"].

Definition inherited (name : string) : bool :=
  bool_decide (name ∈ objectPrototype).

(** An inherited member standing where a command handler is expected.  None
    of the members has an [existingRoom], a [preCondition] or an [fn]
    property: the first two read as [undefined], and calling
    [ctx.handler.fn] throws. *)
Definition inheritedCommandHandler : commandHandler :=
  {| existingRoom := false;
     preCondition := None;
     fn := λ _ _, Raise (new_TypeError "ctx.handler.fn is not a function") |}.

(** An inherited member standing where a reducer is expected.
    [constructor] is [Object], and [Object(currentRoom, eventPayload)]
    returns the room it is given.  Every other member, called without a
    receiver on a room and a payload, throws a TypeError or yields something
    that is not a room, in which case [updatedRoom.get('id')] throws one
    ([__proto__] is not even a function).  The wording of that TypeError
    depends on the member; the model keeps one message for all of them. *)
Definition inheritedEventHandler (name : string) : eventHandler :=
  if decide (name = "constructor")
  then λ currentRoom _, Normal currentRoom
  else λ _ _, Abrupt (new_TypeError "updatedRoom.get is not a function").

(** [commandHandlers[name]] *)
Definition commandHandlerAt (commandHandlers : gmap string commandHandler)
    (name : string) : option commandHandler :=
  match commandHandlers !! name with
  | Some handler => Some handler
  | None => if inherited name then Some inheritedCommandHandler else None
  end.

(** [eventHandlers[name]] *)
Definition eventHandlerAt (eventHandlers : gmap string eventHandler)
    (name : string) : option eventHandler :=
  match eventHandlers !! name with
  | Some handler => Some handler
  | None => if inherited name then Some (inheritedEventHandler name) else None
  end.

Arguments commandHandlerAt : simpl never.
Arguments eventHandlerAt : simpl never.

(** One entry of [ctx.eventHandlingQueue]: given the current room and the
    current contents of [ctx.eventsToSend] it yields the updated room and the
    extended list. *)
Abbreviation deferred := (room → list event → task (room * list event)).

(** The per-job [context] object.  [handler] and [room] are undefined until
    their stage has run; the two arrays are assigned by [handle] before
    anything reads them. *)
Record context : Type := mkContext {
  ctx_userId : option string;
  ctx_handler : option commandHandler;
  ctx_room : option room;
  eventHandlingQueue : list deferred;
  eventsToSend : list event
}.

Definition set_handler (h : commandHandler) (ctx : context) : context :=
  mkContext (ctx_userId ctx) (Some h) (ctx_room ctx)
            (eventHandlingQueue ctx) (eventsToSend ctx).
Definition set_room (r : room) (ctx : context) : context :=
  mkContext (ctx_userId ctx) (ctx_handler ctx) (Some r)
            (eventHandlingQueue ctx) (eventsToSend ctx).
Definition set_eventHandlingQueue (q : list deferred) (ctx : context) : context :=
  mkContext (ctx_userId ctx) (ctx_handler ctx) (ctx_room ctx) q (eventsToSend ctx).
Definition set_eventsToSend (l : list event) (ctx : context) : context :=
  mkContext (ctx_userId ctx) (ctx_handler ctx) (ctx_room ctx)
            (eventHandlingQueue ctx) l.

Record job : Type := mkJob {
  job_command : command;
  job_userId : option string;
  job_promise : nat            (* the resolve/reject pair of the caller's promise *)
}.

(** ** The command processor *)

Module CommandProcessor.

Section commandProcessorFactory.

(** The arguments of the factory: the registered handlers. *)
Variable commandHandlers : gmap string commandHandler.
Variable eventHandlers : gmap string eventHandler.

(** The imported schema validator: it returns, or throws a validation error. *)
Variable commandSchemaValidator : command → completion unit.

(** 1. Validate incoming command (syntactically, against schema).
    [new Promise] is used instead of [Promise.resolve], so an exception
    thrown while invoking the validator rejects the returned promise. *)
Definition validate (cmd : command) : task unit :=
  new_Promise (commandSchemaValidator cmd).

(** 2. Find the command handler that matches the name of the command. *)
Definition getCommandHandler (ctx : context) (cmd : command) : completion context :=
  match commandHandlerAt commandHandlers (cmd_name cmd) with
  | None => Abrupt (new_Error ("No handler found for " +:+ cmd_name cmd))
  | Some handler => Normal (set_handler handler ctx)
  end.

(** 3. Load the room by [command.roomId]. *)
Definition loadRoom (ctx : context) (cmd : command) : task context :=
  GetRoomById (cmd_roomId cmd) (λ room,
    match ctx_handler ctx with
    | None =>
        match room with
        | None => Throw (new_TypeError "Cannot read property 'existingRoom' of undefined")
        | Some r => Ret (set_room r ctx)
        end
    | Some handler =>
        match room with
        | None =>
            if existingRoom handler then
              Throw (new_Error
                ("Command " +:+ dquote +:+ cmd_name cmd +:+ dquote
                   +:+ " only want's to get handled for an existing room. ("
                   +:+ js_str (cmd_roomId cmd) +:+ ")"))
            else
              (* make sure that command handlers always receive a room object *)
              Ret (set_room ∅ ctx)
        | Some r => Ret (set_room r ctx)
        end
    end).

(** 4. Run the command precondition defined by the command handler. *)
Definition preConditions (ctx : context) (cmd : command) : task context :=
  match ctx_handler ctx with
  | None => Throw (new_TypeError "Cannot read property 'preCondition' of undefined")
  | Some handler =>
      match preCondition handler with
      | None => Ret ctx
      | Some pc =>
          Trace (CallPreCondition (ctx_room ctx) cmd (ctx_userId ctx))
            match pc (ctx_room ctx) cmd (ctx_userId ctx) with
            | Normal _ => Ret ctx
            | Abrupt pcError => Throw (PreconditionError pcError cmd)
            end
      end
  end.

(** The function queued by [applyEvent]: it runs the reducer and then
    constructs the event object that is sent back to the clients. *)
Definition deferredStep (eventHandler : eventHandler) (userId : option string)
    (cmd : command) (eventName : string) (eventPayload : value) : deferred :=
  λ currentRoom sent,
    Trace (CallEventHandler eventName currentRoom eventPayload)
      match eventHandler currentRoom eventPayload with
      | Abrupt e => Throw e
      | Normal updatedRoom =>
          Uuid (λ i,
            Ret (updatedRoom,
                 sent ++ [ {| ev_id := i;
                              ev_userId := userId;
                              ev_correlationId := cmd_id cmd;
                              ev_name := eventName;
                              ev_roomId := updatedRoom !! "id";
                              ev_payload := eventPayload |} ]))
      end.

(** [ctx.room.applyEvent], called from command handlers. *)
Definition applyEvent (ctx : context) (cmd : command)
    (eventName : string) (eventPayload : value) : completion context :=
  match eventHandlerAt eventHandlers eventName with
  | None => Abrupt (new_Error ("Cannot apply unknown event " +:+ eventName))
  | Some eventHandler =>
      Normal (set_eventHandlingQueue
                (eventHandlingQueue ctx
                   ++ [deferredStep eventHandler (ctx_userId ctx) cmd eventName eventPayload])
                ctx)
  end.

(** Running the body of a command handler against [applyEvent]. *)
Fixpoint runScript (ctx : context) (cmd : command) (s : script) : completion context :=
  match s with
  | Return => Normal ctx
  | Raise e => Abrupt e
  | ApplyEvent eventName eventPayload rest =>
      match applyEvent ctx cmd eventName eventPayload with
      | Abrupt e => Abrupt e
      | Normal ctx' => runScript ctx' cmd rest
      end
  end.

(** 5. Handle the command by invoking the handler function. *)
Definition handle (ctx : context) (cmd : command) : task context :=
  let ctx := set_eventsToSend [] (set_eventHandlingQueue [] ctx) in
  match ctx_room ctx with
  | None => Throw (new_TypeError "Cannot set property 'applyEvent' of undefined")
  | Some room =>
      match ctx_handler ctx with
      | None => Throw (new_TypeError "Cannot read property 'fn' of undefined")
      | Some handler =>
          Trace (CallFn room cmd) (settle (runScript ctx cmd (fn handler room cmd)))
      end
  end.

(** [queue.forEach(evtHandler => ctx.room = evtHandler(ctx.room))].  When
    this runs [ctx.room] is defined ([handle] has dereferenced it); the
    [None] branch stands for the reducer being handed [undefined]. *)
Fixpoint forEach (queue : list deferred) (ctx : context) : task context :=
  match queue with
  | [] => Ret ctx
  | evtHandler :: queue' =>
      match ctx_room ctx with
      | None => Throw (new_TypeError "Cannot read property of undefined")
      | Some currentRoom =>
          then_ (evtHandler currentRoom (eventsToSend ctx))
                (λ '(updatedRoom, sent),
                   forEach queue' (set_eventsToSend sent (set_room updatedRoom ctx)))
      end
  end.

(** 6. Apply events to the room, in order. *)
Definition applyEvents (ctx : context) : task context :=
  forEach (eventHandlingQueue ctx) ctx.

(** 7. Store the modified room. *)
Definition saveRoomBackToStore (ctx : context) : task context :=
  match ctx_room ctx with
  | None => Throw (new_TypeError "Cannot read property 'set' of undefined")
  | Some r =>
      GetTime (λ now,
        let ctx := set_room (<["lastActivity" := VNum now]> r) ctx in
        SaveRoom (<["lastActivity" := VNum now]> r) (λ _, Ret ctx))
  end.

(** The promise chain built by the job handler, up to and including stage 6. *)
Definition applied (j : job) : task context :=
  let userId := job_userId j in
  let cmd := job_command j in
  let ctx0 := mkContext userId None None [] [] in   (* const context = {userId} *)
  validate cmd
    THEN (λ _, settle (getCommandHandler ctx0 cmd))
    THEN (λ ctx, loadRoom ctx cmd)
    THEN (λ ctx, preConditions ctx cmd)
    THEN (λ ctx, handle ctx cmd)
    THEN (λ ctx, applyEvents ctx).

(** The whole chain of the job handler.  Its settlement is what the final
    [then]/[catch] pair passes to [job.resolve] or [job.reject] (after
    having called [nextJob]). *)
Definition jobHandler (j : job) : task (list event) :=
  applied j
    THEN (λ ctx, saveRoomBackToStore ctx)
    THEN (λ ctx, Ret (eventsToSend ctx)).

(** The rest of the chain, from stage 4 on, once the room is in the context. *)
Definition fromPreconditions (ctx : context) (cmd : command) : task (list event) :=
  preConditions ctx cmd
    THEN (λ ctx, handle ctx cmd)
    THEN (λ ctx, applyEvents ctx)
    THEN (λ ctx, saveRoomBackToStore ctx)
    THEN (λ ctx, Ret (eventsToSend ctx)).

(** ** The outside world *)

(** The store passed to the factory: its state, and its two operations.
    [getRoomById] resolves to the room or to nothing, or rejects;
    [saveRoom] leaves the store in a new state and resolves or rejects. *)
Variable Store : Type.
Variable getRoomById : Store → option string → completion (option room).
Variable saveRoom : Store → room → Store * completion unit.

(** [uuid n] is the n-th identifier the generator hands out, [clock n] the
    n-th reading of [new Date().getTime()]. *)
Variable uuid : nat → string.
Variable clock : nat → Z.

Record world : Type := mkWorld {
  w_store : Store;
  w_uuids : nat;      (* identifiers handed out so far *)
  w_ticks : nat;      (* clock readings so far *)
  w_log : list call   (* calls made so far, oldest first *)
}.

Definition log (c : call) (w : world) : world :=
  mkWorld (w_store w) (w_uuids w) (w_ticks w) (w_log w ++ [c]).

(** One interaction of a running chain with the world. *)
Definition step {A : Type} (t : task A) (w : world) : task A * world :=
  match t with
  | Ret a => (Ret a, w)
  | Throw e => (Throw e, w)
  | GetRoomById i k =>
      (match getRoomById (w_store w) i with
       | Normal r => k r
       | Abrupt e => Throw e
       end, log (CallGetRoomById i) w)
  | SaveRoom r k =>
      let '(s, res) := saveRoom (w_store w) r in
      (match res with
       | Normal u => k u
       | Abrupt e => Throw e
       end, log (CallSaveRoom r) (mkWorld s (w_uuids w) (w_ticks w) (w_log w)))
  | Uuid k =>
      (k (uuid (w_uuids w)), mkWorld (w_store w) (S (w_uuids w)) (w_ticks w) (w_log w))
  | GetTime k =>
      (k (clock (w_ticks w)), mkWorld (w_store w) (w_uuids w) (S (w_ticks w)) (w_log w))
  | Trace c k => (k, log c w)
  end.

(** Running a chain until its promise settles. *)
Fixpoint run {A : Type} (t : task A) (w : world) : world * settled A :=
  match t with
  | Ret a => (w, Fulfilled a)
  | Throw e => (w, Rejected e)
  | GetRoomById i k =>
      match getRoomById (w_store w) i with
      | Normal r => run (k r) (log (CallGetRoomById i) w)
      | Abrupt e => (log (CallGetRoomById i) w, Rejected e)
      end
  | SaveRoom r k =>
      let '(s, res) := saveRoom (w_store w) r in
      let w' := log (CallSaveRoom r) (mkWorld s (w_uuids w) (w_ticks w) (w_log w)) in
      match res with
      | Normal u => run (k u) w'
      | Abrupt e => (w', Rejected e)
      end
  | Uuid k =>
      run (k (uuid (w_uuids w))) (mkWorld (w_store w) (S (w_uuids w)) (w_ticks w) (w_log w))
  | GetTime k =>
      run (k (clock (w_ticks w))) (mkWorld (w_store w) (w_uuids w) (S (w_ticks w)) (w_log w))
  | Trace c k => run k (log c w)
  end.

(** Number of interactions left before the chain settles. *)
Fixpoint cost {A : Type} (t : task A) (w : world) : nat :=
  match t with
  | Ret _ | Throw _ => 0
  | GetRoomById i k =>
      match getRoomById (w_store w) i with
      | Normal r => S (cost (k r) (log (CallGetRoomById i) w))
      | Abrupt _ => 1
      end
  | SaveRoom r k =>
      let '(s, res) := saveRoom (w_store w) r in
      match res with
      | Normal u =>
          S (cost (k u) (log (CallSaveRoom r) (mkWorld s (w_uuids w) (w_ticks w) (w_log w))))
      | Abrupt _ => 1
      end
  | Uuid k =>
      S (cost (k (uuid (w_uuids w)))
              (mkWorld (w_store w) (S (w_uuids w)) (w_ticks w) (w_log w)))
  | GetTime k =>
      S (cost (k (clock (w_ticks w)))
              (mkWorld (w_store w) (w_uuids w) (S (w_ticks w)) (w_log w)))
  | Trace c k => S (cost k (log c w))
  end.

(** ** The sequence queue and the event loop *)

(** Modelled from the spec: the sequence queue ([sequenceQueue.js], required
    by the command processor, is not among the sources).  The design document
    describes it as a FIFO of jobs: [push] appends a job and returns
    immediately; the registered job handler is invoked for the head of the
    queue only after the previous job called [next]; [next] signals the
    completion of the current job, with or without an error, and permits the
    queue to advance. *)
Record sequenceQueue : Type := mkQueue {
  q_jobs : list job;     (* waiting jobs, oldest first *)
  q_handling : bool      (* a job was handed to the job handler and has not called next *)
}.

Definition queueFactory : sequenceQueue := mkQueue [] false.

Definition push (j : job) (q : sequenceQueue) : sequenceQueue :=
  mkQueue (q_jobs q ++ [j]) (q_handling q).

Definition nextJob (q : sequenceQueue) : sequenceQueue :=
  mkQueue (q_jobs q) false.

(** The head of the queue, when the queue may hand it to the job handler. *)
Definition takeJob (q : sequenceQueue) : option (job * sequenceQueue) :=
  if q_handling q then None
  else match q_jobs q with
       | [] => None
       | j :: js => Some (j, mkQueue js true)
       end.

(** The state of the process: the queue, the chains in flight (the promise
    chains of the invocations of the job handler that have not yet run their
    final handlers, oldest first; nothing in the command processor itself
    bounds their number), the outside world, the state of the promises
    handed to the callers, and (as history) the jobs in the order
    [processCommand] received them. *)
Record processor : Type := mkProcessor {
  p_queue : sequenceQueue;
  p_running : list (job * task (list event));
  p_world : world;
  p_promises : gmap nat (settled (list event));
  p_submitted : list job
}.

(** The process at its start: nothing queued, nothing called yet. *)
Definition initial (s : Store) : processor :=
  mkProcessor queueFactory [] (mkWorld s 0 0 []) ∅ [].

(** [processCommand(command, userId)]: a new promise whose executor pushes
    the job; the promise is what the caller gets back. *)
Definition processCommand (cmd : command) (userId : option string)
    (p : processor) : processor * nat :=
  let promise := length (p_submitted p) in
  let j := mkJob cmd userId promise in
  (mkProcessor (push j (p_queue p)) (p_running p) (p_world p) (p_promises p)
               (p_submitted p ++ [j]),
   promise).

(** The queue invokes the job handler for its head, when it may: a new
    chain is in flight, next to those that already are. *)
Definition handOver (p : processor) : option processor :=
  match takeJob (p_queue p) with
  | Some (j, q) =>
      Some (mkProcessor q (p_running p ++ [(j, jobHandler j)]) (p_world p)
                        (p_promises p) (p_submitted p))
  | None => None
  end.

(** The event loop resumes the [i]-th chain in flight.  The chain performs
    its next interaction with the world; or, once it has settled, its final
    [then]/[catch] handlers run: they call [nextJob] and resolve or reject
    the caller's promise, and the chain is over. *)
Definition resume (i : nat) (p : processor) : processor :=
  match p_running p !! i with
  | None => p
  | Some (j, Ret events) =>
      mkProcessor (nextJob (p_queue p)) (delete i (p_running p)) (p_world p)
                  (<[job_promise j := Fulfilled events]> (p_promises p))
                  (p_submitted p)
  | Some (j, Throw err) =>
      mkProcessor (nextJob (p_queue p)) (delete i (p_running p)) (p_world p)
                  (<[job_promise j := Rejected err]> (p_promises p))
                  (p_submitted p)
  | Some (j, t) =>
      let '(t', w') := step t (p_world p) in
      mkProcessor (p_queue p) (<[i := (j, t')]> (p_running p)) w' (p_promises p)
                  (p_submitted p)
  end.

(** One turn of the event loop: the queue hands over its head if it may;
    otherwise the oldest chain in flight is resumed. *)
Definition tick (p : processor) : processor :=
  match handOver p with
  | Some p' => p'
  | None => resume 0 p
  end.

(** What happens to the process: a caller submits a command, the event loop
    takes a turn, or it resumes one particular chain in flight (whichever
    the completed operation belongs to).  A schedule interleaves the three
    arbitrarily. *)
Inductive action : Type :=
| Submit (cmd : command) (userId : option string)
| Tick
| Resume (i : nat).

Definition act (p : processor) (a : action) : processor :=
  match a with
  | Submit cmd userId => (processCommand cmd userId p).1
  | Tick => tick p
  | Resume i => resume i p
  end.

Definition exec (schedule : list action) (p : processor) : processor :=
  foldl act p schedule.

(** The job has been handed to the job handler. *)
Definition begun (p : processor) (j : job) : Prop :=
  (∃ t, (j, t) ∈ p_running p) ∨ is_Some (p_promises p !! job_promise j).

(** Reference behaviour: the jobs run one after the other, each to its end. *)
Fixpoint runAll (js : list job) (w : world) : world :=
  match js with
  | [] => w
  | j :: js' => runAll js' (run (jobHandler j) w).1
  end.

(** The settlement of the [i]-th job when the jobs run one after the other. *)
Definition sequentialOutcome (js : list job) (w : world) (i : nat)
    : option (settled (list event)) :=
  (λ j, (run (jobHandler j) (runAll (take i js) w)).2) <$> js !! i.

(** [progress k t w]: the chain and the world after [k] interactions of
    the chain [t] started in the world [w]. *)
Definition progress {A : Type} (k : nat) (t : task A) (w : world) : task A * world :=
  Nat.iter k (λ tw, step tw.1 tw.2) (t, w).

(** The process is in step with the reference behaviour: the first [n]
    submitted jobs have run to their end, their promises are settled as in
    the reference and no other promise is; at most one chain is in flight;
    the job in flight, if any, is the [n]-th, the queue is waiting for its
    [next], it was started in the world the reference reaches after [n] jobs
    and only its own interactions have happened since; the queue holds the
    jobs after it. *)
Definition inStep (w0 : world) (p : processor) (n : nat) : Prop :=
  let js := p_submitted p in
  n ≤ length js
  ∧ (∀ i j, js !! i = Some j → job_promise j = i)
  ∧ (∀ i, p_promises p !! i
          = if decide (i < n) then sequentialOutcome js w0 i else None)
  ∧ match p_running p with
    | [] =>
        q_jobs (p_queue p) = drop n js
        ∧ q_handling (p_queue p) = false
        ∧ p_world p = runAll (take n js) w0
    | [(j, t)] =>
        js !! n = Some j
        ∧ q_jobs (p_queue p) = drop (S n) js
        ∧ q_handling (p_queue p) = true
        ∧ ∃ k, (t, p_world p) = progress k (jobHandler j) (runAll (take n js) w0)
    | _ => False
    end.

(** The rooms handed to [saveRoom], in the order of the calls. *)
Fixpoint saved (l : list call) : list room :=
  match l with
  | [] => []
  | CallSaveRoom r :: l' => r :: saved l'
  | _ :: l' => saved l'
  end.

End commandProcessorFactory.

Arguments w_store {Store} _.
Arguments w_uuids {Store} _.
Arguments w_ticks {Store} _.
Arguments w_log {Store} _.
Arguments mkWorld {Store} _ _ _ _.
Arguments p_queue {Store} _.
Arguments p_running {Store} _.
Arguments p_world {Store} _.
Arguments p_promises {Store} _.
Arguments p_submitted {Store} _.
Arguments mkProcessor {Store} _ _ _ _ _.
Arguments log {Store} c w.
Arguments step {Store} getRoomById saveRoom uuid clock {A} t w.
Arguments run {Store} getRoomById saveRoom uuid clock {A} t w.
Arguments cost {Store} getRoomById saveRoom uuid clock {A} t w.
Arguments initial {Store} s.
Arguments processCommand {Store} cmd userId p.
Arguments handOver commandHandlers eventHandlers commandSchemaValidator {Store} p.
Arguments resume {Store} getRoomById saveRoom uuid clock i p.
Arguments tick commandHandlers eventHandlers commandSchemaValidator {Store}
  getRoomById saveRoom uuid clock p.
Arguments act commandHandlers eventHandlers commandSchemaValidator {Store}
  getRoomById saveRoom uuid clock p a.
Arguments exec commandHandlers eventHandlers commandSchemaValidator {Store}
  getRoomById saveRoom uuid clock schedule p.
Arguments begun {Store} p j.
Arguments runAll commandHandlers eventHandlers commandSchemaValidator {Store}
  getRoomById saveRoom uuid clock js w.
Arguments progress {Store} getRoomById saveRoom uuid clock {A} k t w.
Arguments sequentialOutcome commandHandlers eventHandlers commandSchemaValidator {Store}
  getRoomById saveRoom uuid clock js w i.
Arguments inStep commandHandlers eventHandlers commandSchemaValidator {Store}
  getRoomById saveRoom uuid clock w0 p n.

End CommandProcessor.

Import CommandProcessor.

(** The events a script declares, in order, up to its end. *)
Fixpoint declared (s : script) : list (string * value) :=
  match s with
  | Return | Raise _ => []
  | ApplyEvent eventName eventPayload rest => (eventName, eventPayload) :: declared rest
  end.

(** The script returns (it does not end by throwing). *)
Fixpoint returns (s : script) : bool :=
  match s with
  | Return => true
  | Raise _ => false
  | ApplyEvent _ _ rest => returns rest
  end.

(** [needle] occurs in [hay]. *)
Definition includes (needle hay : string) : Prop :=
  ∃ before after, hay = before +:+ needle +:+ after.

(** ** The [setUsername] command handler *)

(** [v.k] for a JS value [v]: reading a property of [undefined] throws. *)
Definition get_prop (v : value) (k : string) : completion (option value) :=
  match v with
  | VUndefined => Abrupt (new_TypeError ("Cannot read property '" +:+ k +:+ "' of undefined"))
  | VMap m => Normal (m !! k)
  | _ => Normal None
  end.

(** [userId === v] for a user id that is a string or undefined. *)
Definition strict_eq (userId : option string) (v : option value) : bool :=
  match userId, v with
  | None, None | None, Some VUndefined => true
  | Some s, Some (VStr s') => bool_decide (s = s')
  | _, _ => false
  end.

(** A user sets his username. *)
Definition setUsername : commandHandler :=
  {| existingRoom := true;
     preCondition := Some (λ room command userId,
       match get_prop (cmd_payload command) "userId" with
       | Abrupt e => Abrupt e
       | Normal payloadUserId =>
           if strict_eq userId payloadUserId then Normal tt
           else Abrupt (new_Error "Can only set username for own user!")
       end);
     fn := λ room command,
       ApplyEvent "usernameSet" (cmd_payload command) Return |}.

(** ** The client's reducer for [joinedRoom] *)

Module Client.

(** [m.k] read as a nested map. *)
Definition get_map (m : room) (k : string) : option room :=
  match m !! k with
  | Some (VMap m') => Some m'
  | _ => None
  end.

(** Modelled from the spec: the client's event reducer
    ([app/services/eventReducer.js]) is not among the sources, only its test
    is.  The design document asks reducers to merge new entries into nested
    maps without disturbing existing sibling entries, and its scenario
    "someone else joined" fixes the outcome for a client state that already
    has a [userId]: the entry of the user named by [payload.userId] is taken
    from [payload.users] and put into [state.users]; nothing else changes.
    For a client state without [userId] ("you joined" in the test) the state
    takes [userId], [selectedStory], [stories] and [users] from the payload.
    A payload of another shape leaves the state as it is. *)
Definition joinedRoom (state : room) (payload : value) : room :=
  match payload with
  | VMap p =>
      match state !! "userId" with
      | Some _ =>
          (* someone else joined *)
          match p !! "userId", get_map p "users", get_map state "users" with
          | Some (VStr newUser), Some joining, Some users =>
              match joining !! newUser with
              | Some u => <["users" := VMap (<[newUser := u]> users)]> state
              | None => state
              end
          | _, _, _ => state
          end
      | None =>
          (* you joined *)
          let put k (s : room) :=
            match p !! k with Some v => <[k := v]> s | None => s end in
          put "users" (put "stories" (put "selectedStory" (put "userId" state)))
      end
  | _ => state
  end.

(** The scenario "someone else joined" of the reducer test. *)
Definition startingState : room :=
  {[ "userId" := VStr "myUserId";
     "roomId" := VStr "ourRoom";
     "users" := VMap {[ "myUserId" := VMap {[ "username" := VStr "tester1" ]} ]} ]}.

Definition someoneElseJoined : value :=
  VMap {[ "userId" := VStr "theNewUser";
          "users" := VMap {[ "myUserId" := VMap ∅; "theNewUser" := VMap ∅ ]} ]}.

End Client.

(** ** A concrete processor, as the tests build one *)

Module Demo.

(** An in-memory store: rooms by their [id]. *)
Definition getRoomById (s : gmap string room) (roomId : option string)
    : completion (option room) :=
  Normal (match roomId with Some i => s !! i | None => None end).

Definition saveRoom (s : gmap string room) (r : room)
    : gmap string room * completion unit :=
  match r !! "id" with
  | Some (VStr i) => (<[i := r]> s, Normal tt)
  | _ => (s, Abrupt (new_Error "room has no id"))
  end.

Definition uuid (n : nat) : string := "uuid-" +:+ pretty n.
Definition clock (n : nat) : Z := 1458000000000 + Z.of_nat n.

(** Commands need a name. *)
Definition commandSchemaValidator (cmd : command) : completion unit :=
  if bool_decide (cmd_name cmd = EmptyString) then
    Abrupt (new_Error "Command validation Error: name is missing")
  else Normal tt.

(** Creates the room: the first event gives the room its identity. *)
Definition createRoom : commandHandler :=
  {| existingRoom := false;
     preCondition := None;
     fn := λ room command,
       ApplyEvent "roomCreated" (VMap {[ "id" := VStr "room-1" ]})
         (ApplyEvent "joinedRoom" (cmd_payload command) Return) |}.

(** Declares an event for which the read of the registry finds no reducer. *)
Definition kick : commandHandler :=
  {| existingRoom := true;
     preCondition := None;
     fn := λ room command,
       ApplyEvent "usernameSet" (cmd_payload command)
         (ApplyEvent "kicked" (cmd_payload command) Return) |}.

Definition commandHandlers : gmap string commandHandler :=
  {[ "setUsername" := setUsername; "createRoom" := createRoom; "kick" := kick ]}.

Definition roomCreated : eventHandler :=
  λ room payload,
    match get_prop payload "id" with
    | Normal (Some i) => Normal (<["id" := i]> room)
    | Normal None => Normal room
    | Abrupt e => Abrupt e
    end.

Definition joinedRoom : eventHandler :=
  λ room payload,
    match get_prop payload "userId" with
    | Normal (Some (VStr u)) =>
        let users := default ∅ (Client.get_map room "users") in
        Normal (<["users" := VMap (<[u := VMap ∅]> users)]> room)
    | Normal _ => Abrupt (new_Error "joinedRoom without userId")
    | Abrupt e => Abrupt e
    end.

Definition usernameSet : eventHandler :=
  λ room payload,
    match get_prop payload "userId", get_prop payload "username" with
    | Normal (Some (VStr u)), Normal (Some name) =>
        let users := default ∅ (Client.get_map room "users") in
        let user := default ∅ (Client.get_map users u) in
        Normal (<["users" := VMap (<[u := VMap (<["username" := name]> user)]> users)]> room)
    | _, _ => Abrupt (new_Error "usernameSet without userId or username")
    end.

Definition eventHandlers : gmap string eventHandler :=
  {[ "roomCreated" := roomCreated; "joinedRoom" := joinedRoom;
     "usernameSet" := usernameSet ]}.

Definition world0 : world (gmap string room) := mkWorld ∅ 0 0 [].

Definition payloadOf (userId username : string) : value :=
  VMap {[ "userId" := VStr userId; "username" := VStr username ]}.

Definition cmdCreate : command :=
  mkCommand "c1" "createRoom" None (payloadOf "u1" "anonymous").
Definition cmdRename : command :=
  mkCommand "c2" "setUsername" (Some "room-1") (payloadOf "u1" "tester1").
Definition cmdForeign : command :=
  mkCommand "c3" "setUsername" (Some "room-1") (payloadOf "u2" "mallory").
Definition cmdKick : command :=
  mkCommand "c4" "kick" (Some "room-1") (payloadOf "u1" "x").
Definition cmdStale : command :=
  mkCommand "c5" "setUsername" (Some "gone") (payloadOf "u1" "tester1").
Definition cmdInvalid : command :=
  mkCommand "c6" EmptyString None VUndefined.

Definition runJob (j : job) (w : world (gmap string room)) :=
  run getRoomById saveRoom uuid clock
      (jobHandler commandHandlers eventHandlers commandSchemaValidator j) w.

(** The world once the room has been created. *)
Definition world1 : world (gmap string room) :=
  (runJob (mkJob cmdCreate None 0) world0).1.

(** The room the store holds in [world1]. *)
Definition room1 : option room := w_store world1 !! "room-1".

Definition events (s : settled (list event)) : list event :=
  match s with Fulfilled l => l | Rejected _ => [] end.

Definition reason (s : settled (list event)) : error :=
  match s with Fulfilled _ => new_Error "fulfilled" | Rejected e => e end.

(** Two callers and the event loop, interleaved. *)
Definition schedule : list action :=
  [Submit cmdCreate None; Tick; Tick; Submit cmdRename (Some "u1"); Tick;
   Submit cmdForeign (Some "u1")] ++ replicate 20 Tick.

End Demo.

(** ** Vocabulary of the statements *)

(** Every call the chain can make satisfies [P]. *)
Fixpoint calls {A : Type} (t : task A) (P : call → Prop) : Prop :=
  match t with
  | Ret _ | Throw _ => True
  | GetRoomById i k => P (CallGetRoomById i) ∧ ∀ r, calls (k r) P
  | SaveRoom r k => P (CallSaveRoom r) ∧ ∀ u, calls (k u) P
  | Uuid k => ∀ i, calls (k i) P
  | GetTime k => ∀ now, calls (k now) P
  | Trace c k => P c ∧ calls k P
  end.

Definition notSave (c : call) : Prop :=
  match c with CallSaveRoom _ => False | _ => True end.

(** The chain never calls [saveRoom]. *)
Definition nosave {A : Type} (t : task A) : Prop := calls t notSave.

(** Every value the chain can be fulfilled with satisfies [P]. *)
Fixpoint leaves {A : Type} (t : task A) (P : A → Prop) : Prop :=
  match t with
  | Ret a => P a
  | Throw _ => True
  | GetRoomById _ k => ∀ r, leaves (k r) P
  | SaveRoom _ k => ∀ u, leaves (k u) P
  | Uuid k => ∀ i, leaves (k i) P
  | GetTime k => ∀ now, leaves (k now) P
  | Trace _ k => leaves k P
  end.

(** The entries of the event handling queue only make calls that satisfy [P]. *)
Definition queueCalls (P : call → Prop) (ctx : context) : Prop :=
  Forall (λ d : deferred, ∀ r sent, calls (d r sent) P) (eventHandlingQueue ctx).

(** The room stage 3 puts into the context for what the store returned. *)
Definition roomFor (loaded : option room) : room := default ∅ loaded.

(** The call hands the room [r0] to a precondition or to a handler function
    (or is a call of another kind). *)
Definition receives (r0 : room) (c : call) : Prop :=
  match c with
  | CallPreCondition r _ _ => r = Some r0
  | CallFn r _ => r = r0
  | _ => True
  end.

(** [threaded eventHandlers r ds rs]: applying the reducers of the declared
    events [ds] one after the other, starting from the room [r], succeeds and
    yields the rooms [rs], one per event: each reducer consumes the room the
    previous one produced. *)
Inductive threaded (eventHandlers : gmap string eventHandler)
    : room → list (string * value) → list room → Prop :=
| threaded_nil r : threaded eventHandlers r [] []
| threaded_cons r eventName eventPayload reducer r' ds rs :
    eventHandlerAt eventHandlers eventName = Some reducer →
    reducer r eventPayload = Normal r' →
    threaded eventHandlers r' ds rs →
    threaded eventHandlers r ((eventName, eventPayload) :: ds) (r' :: rs).

(** [queued eventHandlers userId cmd q ds]: the queue [q] holds, in order,
    the deferred steps of the declared events [ds], each with the reducer
    that the read of the registry finds for its name. *)
Definition queued (eventHandlers : gmap string eventHandler)
    (userId : option string) (cmd : command)
    (q : list deferred) (ds : list (string * value)) : Prop :=
  Forall2 (λ (d : deferred) (nd : string * value),
             ∃ reducer, eventHandlerAt eventHandlers (nd.1) = Some reducer
                        ∧ d = deferredStep reducer userId cmd nd.1 nd.2) q ds.

(** The reducer invocations that [threaded] describes: the i-th reducer is
    called on the (i-1)-th resulting room, the first one on [r]. *)
Fixpoint reducerCalls (r : room) (ds : list (string * value)) (rs : list room) : list call :=
  match ds, rs with
  | (eventName, eventPayload) :: ds', r' :: rs' =>
      CallEventHandler eventName r eventPayload :: reducerCalls r' ds' rs'
  | _, _ => []
  end.

(** The event objects for the declared events [ds] whose reducers produced
    the rooms [rs], the first identifier being the [n]-th of the generator. *)
Fixpoint eventsFor (uuid : nat → string) (userId : option string) (cmd : command)
    (n : nat) (ds : list (string * value)) (rs : list room) : list event :=
  match ds, rs with
  | (eventName, eventPayload) :: ds', r' :: rs' =>
      {| ev_id := uuid n;
         ev_userId := userId;
         ev_correlationId := cmd_id cmd;
         ev_name := eventName;
         ev_roomId := r' !! "id";
         ev_payload := eventPayload |} :: eventsFor uuid userId cmd (S n) ds' rs'
  | _, _ => []
  end.

(** The calls made for a precondition: one if the handler defines it. *)
Definition preConditionCalls (h : commandHandler) (r0 : room) (cmd : command)
    (userId : option string) : list call :=
  match preCondition h with
  | Some _ => [CallPreCondition (Some r0) cmd userId]
  | None => []
  end.

(** [lastActivity] set to the given reading of the clock. *)
Definition stamped (now : Z) (r : room) : room := <["lastActivity" := VNum now]> r.

(** The [lastActivity] stamps of a list of rooms. *)
Definition stamps (rs : list room) : list (option value) :=
  (λ r : room, r !! "lastActivity") <$> rs.



(** ** Further vocabulary: the stages one by one *)

Section stages.

Context (commandHandlers : gmap string commandHandler)
        (commandSchemaValidator : command → completion unit)
        {Store : Type}
        (getRoomById : Store → option string → completion (option room)).

(** Stages 1 to 4 pass for the job [j] in the world [w]: the validator
    accepts the command, [h] is what the registry yields for its name, the
    store answers the lookup with [loaded], which is a room or is not
    required to be one, and the precondition of [h], if it has one, returns
    when called with the room of the context, the command and the user. *)
Definition ready (j : job) (w : world Store) (h : commandHandler)
    (loaded : option room) : Prop :=
  let cmd := job_command j in
  commandSchemaValidator cmd = Normal tt
  ∧ commandHandlerAt commandHandlers (cmd_name cmd) = Some h
  ∧ getRoomById (w_store w) (cmd_roomId cmd) = Normal loaded
  ∧ (loaded = None → existingRoom h = false)
  ∧ ∀ pc, preCondition h = Some pc →
      pc (Some (roomFor loaded)) cmd (job_userId j) = Normal tt.

End stages.

(** The error a script ends with, if it ends by throwing. *)
Fixpoint raised (s : script) : option error :=
  match s with
  | Return => None
  | Raise e => Some e
  | ApplyEvent _ _ rest => raised rest
  end.

(** For every declared event the read of the registry finds a reducer. *)
Definition allRegistered (eventHandlers : gmap string eventHandler)
    (ds : list (string * value)) : Prop :=
  Forall (λ nd : string * value, is_Some (eventHandlerAt eventHandlers (nd.1))) ds.



(** A call that does not go to the store. *)
Definition notStore (c : call) : Prop :=
  match c with
  | CallGetRoomById _ | CallSaveRoom _ => False
  | _ => True
  end.

(** ** The top bar of the client *)

Module TopBar.

(** [!!v] for a JS value. *)
Definition truthy (v : option value) : bool :=
  match v with
  | None | Some VUndefined => false
  | Some (VBool b) => b
  | Some (VNum z) => negb (z =? 0)%Z
  | Some (VStr s) => negb (bool_decide (s = EmptyString))
  | Some (VMap _) => true
  end.

(** [m.get(key)] on a map whose keys are strings: a key that is not a
    string finds nothing. *)
Definition get (m : room) (key : option value) : option value :=
  match key with
  | Some (VStr k) => m !! k
  | _ => None
  end.

(** [v.getIn(path)]: a step into something that is not a map yields
    undefined. *)
Fixpoint getIn (v : option value) (path : list (option value)) : option value :=
  match path with
  | [] => v
  | key :: path' =>
      match v with
      | Some (VMap m) => getIn (get m key) path'
      | _ => None
      end
  end.

(** [a || b] *)
Definition or_else (a b : option value) : option value :=
  if truthy a then a else b.

Record props : Type := mkProps {
  roomId : option value;
  username : option value
}.

(** The first argument of [connect]: the props taken from the state. *)
Definition mapStateToProps (state : room) : props :=
  {| roomId := state !! "roomId";
     username :=
       or_else (getIn (Some (VMap state))
                      [Some (VStr "users"); state !! "userId"; Some (VStr "username")])
               (Some (VStr "-")) |}.

End TopBar.

(** ** More concrete handlers and a store that fails *)

Module Faults.

(** Declares nothing. *)
Definition touch : commandHandler :=
  {| existingRoom := false; preCondition := None; fn := λ room command, Return |}.

(** Declares an event and then throws. *)
Definition giveUp : commandHandler :=
  {| existingRoom := true;
     preCondition := None;
     fn := λ room command,
       ApplyEvent "usernameSet" (cmd_payload command)
         (Raise (new_Error "giving up")) |}.

(** The reducer of its second event throws: the payload names no user. *)
Definition renameThenJoin : commandHandler :=
  {| existingRoom := true;
     preCondition := None;
     fn := λ room command,
       ApplyEvent "usernameSet" (cmd_payload command)
         (ApplyEvent "joinedRoom" (VMap ∅) Return) |}.

Definition commandHandlers : gmap string commandHandler :=
  {[ "setUsername" := setUsername; "touch" := touch; "giveUp" := giveUp;
     "renameThenJoin" := renameThenJoin ]}.

(** A store that has lost its connection. *)
Definition getRoomById (s : gmap string room) (roomId : option string)
    : completion (option room) :=
  Abrupt (new_Error "connection lost").

Definition cmdTouch : command :=
  mkCommand "f1" "touch" (Some "room-1") VUndefined.
Definition cmdTouchNowhere : command :=
  mkCommand "f2" "touch" None VUndefined.
Definition cmdGiveUp : command :=
  mkCommand "f3" "giveUp" (Some "room-1") (Demo.payloadOf "u1" "x").
Definition cmdUnknown : command :=
  mkCommand "f5" "dance" (Some "room-1") VUndefined.
Definition cmdNoPayload : command :=
  mkCommand "f6" "setUsername" (Some "room-1") VUndefined.

Definition runJob (j : job) (w : world (gmap string room)) :=
  run Demo.getRoomById Demo.saveRoom Demo.uuid Demo.clock
      (jobHandler commandHandlers Demo.eventHandlers Demo.commandSchemaValidator j) w.

(** The room of [Demo.world1], and that room once the [usernameSet] reducer
    has been applied to it with the payload of the command. *)
Definition room1 : room := roomFor Demo.room1.

Definition renamed (cmd : command) : room :=
  match Demo.usernameSet room1 (cmd_payload cmd) with
  | Normal r => r
  | Abrupt _ => room1
  end.

(** The top bar's state of a user who is in a room. *)
Definition users : gmap string value :=
  {[ "myUserId" := VMap {[ "username" := VStr "tester1" ]} ]}.

End Faults.

(** ** Names that every plain object inherits *)

Module Prototype.

(** Declares an event under the name [constructor]; no reducer is registered
    under that name. *)
Definition construct : commandHandler :=
  {| existingRoom := true;
     preCondition := None;
     fn := λ room command, ApplyEvent "constructor" (cmd_payload command) Return |}.

Definition commandHandlers : gmap string commandHandler :=
  {[ "setUsername" := setUsername; "construct" := construct ]}.

Definition cmdConstruct : command :=
  mkCommand "p1" "construct" (Some "room-1") (Demo.payloadOf "u1" "x").

(** A command named after an inherited member; no handler is registered
    under that name. *)
Definition cmdConstructor : command :=
  mkCommand "p2" "constructor" (Some "room-1") VUndefined.

Definition runJob (j : job) (w : world (gmap string room)) :=
  run Demo.getRoomById Demo.saveRoom Demo.uuid Demo.clock
      (jobHandler commandHandlers Demo.eventHandlers Demo.commandSchemaValidator j) w.

End Prototype.

(** ** Without the queue

    [processCommand] says why jobs go through the queue: were two commands
    for the same room handled as they arrive, a few ms apart, both handlers
    would receive the same room from the store and the second would override
    what the first did.  Here two jobs have been handed to the job handler
    at once, and the event loop serves their chains in turns. *)

Module Unsequenced.

Definition cmdRenameOther : command :=
  mkCommand "c7" "setUsername" (Some "room-1") (Demo.payloadOf "u2" "tester2").

Definition jobs : list job :=
  [mkJob Demo.cmdRename (Some "u1") 0; mkJob cmdRenameOther (Some "u2") 1].

Definition bothInFlight : processor (gmap string room) :=
  mkProcessor queueFactory
    ((λ j, (j, jobHandler Demo.commandHandlers Demo.eventHandlers
                          Demo.commandSchemaValidator j)) <$> jobs)
    Demo.world1 ∅ jobs.

Definition inTurns : list action :=
  concat (replicate 12 [Resume 0; Resume 1]).

(** The user name a store holds for a user of the room. *)
Definition usernameIn (s : gmap string room) (u : string) : option value :=
  match s !! "room-1" with
  | Some r =>
      match Client.get_map r "users" with
      | Some users =>
          match Client.get_map users u with
          | Some user => user !! "username"
          | None => None
          end
      | None => None
      end
  | None => None
  end.

End Unsequenced.

(** * Properties *)

Section properties.

Context (commandHandlers : gmap string commandHandler)
        (eventHandlers : gmap string eventHandler)
        (commandSchemaValidator : command → completion unit)
        {Store : Type}
        (getRoomById : Store → option string → completion (option room))
        (saveRoom : Store → room → Store * completion unit)
        (uuid : nat → string)
        (clock : nat → Z).

Local Abbreviation run := (run getRoomById saveRoom uuid clock).
Local Abbreviation step := (step getRoomById saveRoom uuid clock).
Local Abbreviation cost := (cost getRoomById saveRoom uuid clock).
Local Abbreviation progress := (progress getRoomById saveRoom uuid clock).
Local Abbreviation jobHandler := (jobHandler commandHandlers eventHandlers commandSchemaValidator).
Local Abbreviation applied := (applied commandHandlers eventHandlers commandSchemaValidator).
Local Abbreviation fromPreconditions := (fromPreconditions eventHandlers).
Local Abbreviation handle := (handle eventHandlers).
Local Abbreviation runScript := (runScript eventHandlers).
Local Abbreviation applyEvent := (applyEvent eventHandlers).
Local Abbreviation getCommandHandler := (getCommandHandler commandHandlers).
Local Abbreviation validate := (validate commandSchemaValidator).
Local Abbreviation handOver := (handOver commandHandlers eventHandlers commandSchemaValidator).
Local Abbreviation resume := (resume getRoomById saveRoom uuid clock).
Local Abbreviation tick := (tick commandHandlers eventHandlers commandSchemaValidator
                       getRoomById saveRoom uuid clock).
Local Abbreviation act := (act commandHandlers eventHandlers commandSchemaValidator
                     getRoomById saveRoom uuid clock).
Local Abbreviation exec := (exec commandHandlers eventHandlers commandSchemaValidator
                       getRoomById saveRoom uuid clock).
Local Abbreviation runAll := (runAll commandHandlers eventHandlers commandSchemaValidator
                           getRoomById saveRoom uuid clock).
Local Abbreviation sequentialOutcome :=
  (sequentialOutcome commandHandlers eventHandlers commandSchemaValidator
                     getRoomById saveRoom uuid clock).
Local Abbreviation inStep :=
  (inStep commandHandlers eventHandlers commandSchemaValidator
          getRoomById saveRoom uuid clock).
Local Abbreviation world := (world Store).
Local Abbreviation processor := (processor Store).

(** *** Promise chains *)

Lemma run_then {A B : Type} (p : task A) (cb : A → task B) (w : world) :
  run (p THEN cb) w =
    match run p w with
    | (w', Fulfilled a) => run (cb a) w'
    | (w', Rejected e) => (w', Rejected e)
    end.
Proof.
  revert w. induction p as [a|e|i k IH|r k IH|k IH|k IH|c k IH]; intros w; simpl.
  - done.
  - done.
  - destruct (getRoomById (w_store w) i); [apply IH | done].
  - destruct (saveRoom (w_store w) r) as [s [u|e]]; [apply IH | done].
  - apply IH.
  - apply IH.
  - apply IH.
Qed.

Lemma run_then_rejected {A B : Type} (p : task A) (cb : A → task B) w w' e :
  run p w = (w', Rejected e) → run (p THEN cb) w = (w', Rejected e).
Proof. intros H. by rewrite run_then, H. Qed.

Lemma run_then_fulfilled {A B : Type} (p : task A) (cb : A → task B) w w' a :
  run p w = (w', Fulfilled a) → run (p THEN cb) w = run (cb a) w'.
Proof. intros H. by rewrite run_then, H. Qed.

(** One interaction does not change where the chain ends. *)
Lemma run_step {A : Type} (t : task A) (w : world) :
  run (step t w).1 (step t w).2 = run t w.
Proof.
  destruct t as [a|e|i k|r k|k|k|c k]; simpl; try done.
  - by destruct (getRoomById (w_store w) i).
  - by destruct (saveRoom (w_store w) r) as [s [u|e]].
Qed.

Lemma cost_step {A : Type} (t : task A) (w : world) :
  cost (step t w).1 (step t w).2 = pred (cost t w).
Proof.
  destruct t as [a|e|i k|r k|k|k|c k]; simpl; try done.
  - by destruct (getRoomById (w_store w) i).
  - by destruct (saveRoom (w_store w) r) as [s [u|e]].
Qed.

Lemma cost_0 {A : Type} (t : task A) (w : world) :
  cost t w = 0 → (∃ a, t = Ret a) ∨ (∃ e, t = Throw e).
Proof.
  destruct t as [a|e|i k|r k|k|k|c k]; simpl; eauto; try done.
  - by destruct (getRoomById (w_store w) i).
  - by destruct (saveRoom (w_store w) r) as [s [u|e]].
Qed.

(** *** The call log and the store *)

Lemma saved_app (l1 l2 : list call) : saved (l1 ++ l2) = saved l1 ++ saved l2.
Proof.
  induction l1 as [|c l1 IH]; [done|]. destruct c; simpl; by rewrite ?IH.
Qed.

Lemma saved_notSave (l : list call) : Forall notSave l → saved l = [].
Proof. induction 1 as [|c l Hc _ IH]; [done|]. by destruct c. Qed.

(** The log only grows, by calls the chain can make; the counters only
    grow; and a chain that does not call [saveRoom] leaves the store as it
    is. *)
Lemma run_log {A : Type} (t : task A) (w : world) :
  ∃ l, w_log (run t w).1 = w_log w ++ l
       ∧ w_uuids w ≤ w_uuids (run t w).1
       ∧ w_ticks w ≤ w_ticks (run t w).1
       ∧ (∀ P, calls t P → Forall P l)
       ∧ (nosave t → w_store (run t w).1 = w_store w).
Proof.
  revert w. induction t as [a|e|i k IH|r k IH|k IH|k IH|c k IH]; intros w; simpl.
  - exists []. by rewrite app_nil_r.
  - exists []. by rewrite app_nil_r.
  - destruct (getRoomById (w_store w) i) as [ro|e].
    + destruct (IH ro (log (CallGetRoomById i) w)) as (l & Hl & Hu & Ht & Hc & Hs).
      exists (CallGetRoomById i :: l). simpl in *.
      rewrite Hl, <- app_assoc. split_and!; try done.
      * intros P [HP Hk]. constructor; [done|]. apply Hc, Hk.
      * intros [_ Hn]. apply Hs, Hn.
    + exists [CallGetRoomById i]. simpl. split_and!; try done.
      intros P [HP _]. by constructor.
  - destruct (saveRoom (w_store w) r) as [s [u|e]].
    + match goal with |- context [run (k u) ?w0] =>
        destruct (IH u w0) as (l & Hl & Hu & Ht & Hc & Hs) end.
      exists (CallSaveRoom r :: l). simpl in *.
      rewrite Hl, <- app_assoc. split_and!; try done.
      * intros P [HP Hk]. constructor; [done|]. apply Hc, Hk.
      * by intros [[] _].
    + exists [CallSaveRoom r]. simpl. split_and!; try done.
      * intros P [HP _]. by constructor.
      * by intros [[] _].
  - match goal with |- context [run (k ?x) ?w0] =>
      destruct (IH x w0) as (l & Hl & Hu & Ht & Hc & Hs) end.
    exists l. simpl in *. split_and!; try done; try lia.
    + intros P Hk. apply Hc, Hk.
    + intros Hn. apply Hs, Hn.
  - match goal with |- context [run (k ?x) ?w0] =>
      destruct (IH x w0) as (l & Hl & Hu & Ht & Hc & Hs) end.
    exists l. simpl in *. split_and!; try done; try lia.
    + intros P Hk. apply Hc, Hk.
    + intros Hn. apply Hs, Hn.
  - destruct (IH (log c w)) as (l & Hl & Hu & Ht & Hc & Hs).
    exists (c :: l). simpl in *. rewrite Hl, <- app_assoc. split_and!; try done.
    + intros P [HP Hk]. constructor; [done|]. apply Hc, Hk.
    + intros [_ Hn]. apply Hs, Hn.
Qed.

Lemma calls_then {A B : Type} (p : task A) (cb : A → task B)
    (P : call → Prop) (Q : A → Prop) :
  calls p P → leaves p Q → (∀ a, Q a → calls (cb a) P) → calls (p THEN cb) P.
Proof.
  intros Hp Hl Hcb. induction p as [a|e|i k IH|r k IH|k IH|k IH|c k IH]; simpl in *.
  - by apply Hcb.
  - done.
  - split; [apply Hp|]. intros r. apply IH; [apply Hp | done].
  - split; [apply Hp|]. intros u. apply IH; [apply Hp | done].
  - intros i. by apply IH.
  - intros t. by apply IH.
  - split; [apply Hp | apply IH; [apply Hp | done]].
Qed.

Lemma leaves_then {A B : Type} (p : task A) (cb : A → task B)
    (P : A → Prop) (Q : B → Prop) :
  leaves p P → (∀ a, P a → leaves (cb a) Q) → leaves (p THEN cb) Q.
Proof.
  intros Hl Hcb. induction p as [a|e|i k IH|r k IH|k IH|k IH|c k IH]; simpl in *;
    eauto.
Qed.

Lemma leaves_impl {A : Type} (p : task A) (P Q : A → Prop) :
  leaves p P → (∀ a, P a → Q a) → leaves p Q.
Proof. induction p; simpl; eauto. Qed.

Lemma leaves_True {A : Type} (p : task A) : leaves p (λ _, True).
Proof. induction p; simpl; eauto. Qed.

Lemma calls_settle {A : Type} (c : completion A) (P : call → Prop) : calls (settle c) P.
Proof. by destruct c. Qed.

Lemma leaves_settle {A : Type} (c : completion A) (P : A → Prop) :
  (∀ a, c = Normal a → P a) → leaves (settle c) P.
Proof. destruct c; simpl; eauto. Qed.

Lemma run_then_cong {A B : Type} (p p' : task A) (cb : A → task B) (w w' : world) :
  run p w = run p' w' → run (p THEN cb) w = run (p' THEN cb) w'.
Proof. intros H. by rewrite !run_then, H. Qed.

(** *** What the stages call, and what they leave in the context *)

Section stage_calls.

Context (P : call → Prop).

Lemma calls_loadRoom ctx cmd :
  P (CallGetRoomById (cmd_roomId cmd)) → calls (loadRoom ctx cmd) P.
Proof.
  intros HP. split; [done|]. intros [r|]; destruct (ctx_handler ctx) as [h|]; try done.
  by destruct (existingRoom h).
Qed.

Lemma leaves_loadRoom ctx cmd :
  leaves (loadRoom ctx cmd) (λ ctx',
    ∃ r, ctx' = set_room r ctx).
Proof.
  intros [r|]; simpl; destruct (ctx_handler ctx) as [h|]; simpl; eauto.
  destruct (existingRoom h); simpl; eauto.
Qed.

Lemma calls_preConditions ctx cmd :
  P (CallPreCondition (ctx_room ctx) cmd (ctx_userId ctx)) →
  calls (preConditions ctx cmd) P.
Proof.
  intros HP. unfold preConditions. destruct (ctx_handler ctx) as [h|]; [|done].
  destruct (preCondition h) as [pc|]; [|done]. simpl. split; [done|].
  by destruct (pc _ _ _).
Qed.

Lemma leaves_preConditions ctx cmd :
  leaves (preConditions ctx cmd) (λ ctx', ctx' = ctx).
Proof.
  unfold preConditions. destruct (ctx_handler ctx) as [h|]; [|done].
  destruct (preCondition h) as [pc|]; [|done]. simpl. by destruct (pc _ _ _).
Qed.

Lemma calls_deferredStep reducer userId cmd eventName eventPayload r sent :
  P (CallEventHandler eventName r eventPayload) →
  calls (deferredStep reducer userId cmd eventName eventPayload r sent) P.
Proof. intros HP. simpl. split; [done|]. by destruct (reducer r eventPayload). Qed.

Lemma runScript_fields ctx cmd s ctx' :
  runScript ctx cmd s = Normal ctx' →
  ctx_userId ctx' = ctx_userId ctx ∧ ctx_handler ctx' = ctx_handler ctx
  ∧ ctx_room ctx' = ctx_room ctx ∧ eventsToSend ctx' = eventsToSend ctx.
Proof.
  revert ctx. induction s as [|e|n p rest IH]; intros ctx; simpl.
  - by intros [= <-].
  - done.
  - unfold applyEvent. destruct (eventHandlerAt eventHandlers n) as [reducer|]; [|done].
    intros H. by destruct (IH _ H) as (-> & -> & -> & ->).
Qed.

Lemma queueCalls_runScript ctx cmd s ctx' :
  (∀ n r p, P (CallEventHandler n r p)) →
  queueCalls P ctx → runScript ctx cmd s = Normal ctx' → queueCalls P ctx'.
Proof.
  intros HP. revert ctx. induction s as [|e|n p rest IH]; intros ctx Hq; simpl.
  - by intros [= <-].
  - done.
  - unfold applyEvent. destruct (eventHandlerAt eventHandlers n) as [reducer|]; [|done].
    apply IH. unfold queueCalls in *; simpl. apply Forall_app; split; [done|].
    apply Forall_singleton. intros r sent. by apply calls_deferredStep.
Qed.

Lemma calls_handle ctx cmd :
  (∀ r, ctx_room ctx = Some r → P (CallFn r cmd)) → calls (handle ctx cmd) P.
Proof.
  intros HP. unfold CommandProcessor.handle; simpl. destruct (ctx_room ctx) as [r|]; [|done].
  destruct (ctx_handler ctx); [|done]. simpl. split; [by apply HP|].
  apply calls_settle.
Qed.

Lemma leaves_handle ctx cmd :
  (∀ n r p, P (CallEventHandler n r p)) →
  leaves (handle ctx cmd) (λ ctx', queueCalls P ctx' ∧ ctx_room ctx' = ctx_room ctx).
Proof.
  intros HP. unfold CommandProcessor.handle; simpl. destruct (ctx_room ctx) as [r|] eqn:Er; [|done].
  destruct (ctx_handler ctx) as [h|]; [|done]. simpl.
  apply leaves_settle. intros ctx' E. split.
  - eapply queueCalls_runScript; [done| |done]. by apply Forall_nil.
  - apply runScript_fields in E. by destruct E as (_ & _ & -> & _).
Qed.

Lemma calls_forEach queue ctx :
  Forall (λ d : deferred, ∀ r sent, calls (d r sent) P) queue →
  calls (forEach queue ctx) P.
Proof.
  intros Hq. revert ctx. induction Hq as [|d queue Hd Hq IH]; intros ctx; simpl.
  - done.
  - destruct (ctx_room ctx) as [r|]; [|done].
    apply calls_then with (Q := λ _, True); [apply Hd | apply leaves_True |].
    intros [r' sent] _. apply IH.
Qed.

Lemma calls_saveRoomBackToStore ctx :
  (∀ r, P (CallSaveRoom r)) → calls (saveRoomBackToStore ctx) P.
Proof.
  intros HP. unfold saveRoomBackToStore. destruct (ctx_room ctx) as [r|]; [|done].
  simpl. intros now. split; [apply HP | done].
Qed.

(** The calls of stages 4 to 6 on a context that holds the room [r0]. *)
Lemma calls_stages_4_6 ctx cmd r0 :
  ctx_room ctx = Some r0 →
  P (CallPreCondition (Some r0) cmd (ctx_userId ctx)) →
  P (CallFn r0 cmd) →
  (∀ n r p, P (CallEventHandler n r p)) →
  calls (preConditions ctx cmd THEN (λ ctx, handle ctx cmd)
           THEN (λ ctx, applyEvents ctx)) P.
Proof.
  intros Hr Hpre Hfn Hred.
  eapply calls_then; [eapply calls_then| |].
  - apply calls_preConditions. by rewrite Hr.
  - apply leaves_preConditions.
  - intros ? ->. apply calls_handle. rewrite Hr. by intros ? [= <-].
  - eapply leaves_then; [apply leaves_preConditions|].
    intros ? ->. by apply leaves_handle.
  - intros ctx' [Hq _]. by apply calls_forEach.
Qed.

Lemma calls_fromPreconditions ctx cmd r0 :
  ctx_room ctx = Some r0 →
  P (CallPreCondition (Some r0) cmd (ctx_userId ctx)) →
  P (CallFn r0 cmd) →
  (∀ n r p, P (CallEventHandler n r p)) →
  (∀ r, P (CallSaveRoom r)) →
  calls (fromPreconditions ctx cmd) P.
Proof.
  intros Hr Hpre Hfn Hred Hsave. unfold CommandProcessor.fromPreconditions.
  eapply calls_then with (Q := λ _, True); [eapply calls_then with (Q := λ _, True)| |].
  - by eapply calls_stages_4_6.
  - apply leaves_True.
  - intros ctx' _. by apply calls_saveRoomBackToStore.
  - apply leaves_True.
  - done.
Qed.

End stage_calls.

Lemma nosave_applied j : nosave (applied j).
Proof.
  unfold CommandProcessor.applied.
  assert (Hload : ∀ ctx,
    calls (validate (job_command j)
             THEN (λ _, settle (getCommandHandler ctx (job_command j)))
             THEN (λ ctx, loadRoom ctx (job_command j))) notSave).
  { intros ctx. eapply calls_then with (Q := λ _, True).
    - eapply calls_then with (Q := λ _, True); [apply calls_settle|apply leaves_True|].
      intros. apply calls_settle.
    - apply leaves_True.
    - intros. by apply calls_loadRoom. }
  assert (Hleaves : ∀ ctx,
    leaves (validate (job_command j)
             THEN (λ _, settle (getCommandHandler ctx (job_command j)))
             THEN (λ ctx, loadRoom ctx (job_command j)))
           (λ ctx', is_Some (ctx_room ctx'))).
  { intros ctx. eapply leaves_then; [apply leaves_True|].
    intros ctx1 _. eapply leaves_impl; [apply leaves_loadRoom|].
    intros ctx2 [r ->]. simpl. eauto. }
  set (ctx0 := mkContext _ _ _ _ _).
  eapply calls_then with (Q := λ ctx, queueCalls notSave ctx);
    [eapply calls_then with (Q := λ ctx, is_Some (ctx_room ctx));
      [eapply calls_then with (Q := λ ctx, is_Some (ctx_room ctx))|..]|..].
  - apply Hload.
  - apply Hleaves.
  - intros ctx _. by apply calls_preConditions.
  - eapply leaves_then; [apply Hleaves|]. intros ctx Hr.
    eapply leaves_impl; [apply leaves_preConditions|]. by intros ? ->.
  - intros ctx _. by apply calls_handle.
  - eapply leaves_then with (P := λ _, True); [apply leaves_True|].
    intros ctx _. eapply leaves_impl; [by apply (leaves_handle notSave)|].
    by intros ctx' [Hq _].
  - intros ctx Hq. by apply calls_forEach.
Qed.

(** A rejection in stages 1 to 6 is the rejection of the job, and leaves
    no trace in the store. *)
Lemma applied_rejected (j : job) (w w' : world) (e : error) :
  run (applied j) w = (w', Rejected e) →
  run (jobHandler j) w = (w', Rejected e)
  ∧ saved (w_log w') = saved (w_log w)
  ∧ w_store w' = w_store w.
Proof.
  intros H. split.
  - unfold CommandProcessor.jobHandler. by do 2 (apply run_then_rejected).
  - destruct (run_log (applied j) w) as (l & Hl & _ & _ & Hc & Hs).
    rewrite H in Hl, Hs. simpl in *. split; [|apply Hs, nosave_applied].
    rewrite Hl, saved_app, (saved_notSave l), app_nil_r; [done|].
    apply Hc, nosave_applied.
Qed.

(** *** Stages 1 to 3 *)

Lemma applied_invalid (j : job) (w : world) (e : error) :
  commandSchemaValidator (job_command j) = Abrupt e →
  run (applied j) w = (w, Rejected e).
Proof. intros Hv. unfold CommandProcessor.applied, CommandProcessor.validate. by rewrite Hv. Qed.

Lemma applied_no_handler (j : job) (w : world) u :
  commandSchemaValidator (job_command j) = Normal u →
  commandHandlerAt commandHandlers (cmd_name (job_command j)) = None →
  run (applied j) w =
    (w, Rejected (new_Error ("No handler found for " +:+ cmd_name (job_command j)))).
Proof.
  intros Hv Hh.
  unfold CommandProcessor.applied, CommandProcessor.validate, CommandProcessor.getCommandHandler.
  by rewrite Hv, Hh.
Qed.

Lemma applied_load_rejected (j : job) (w : world) u h e :
  commandSchemaValidator (job_command j) = Normal u →
  commandHandlerAt commandHandlers (cmd_name (job_command j)) = Some h →
  getRoomById (w_store w) (cmd_roomId (job_command j)) = Abrupt e →
  run (applied j) w = (log (CallGetRoomById (cmd_roomId (job_command j))) w, Rejected e).
Proof.
  intros Hv Hh Hg.
  unfold CommandProcessor.applied, CommandProcessor.validate, CommandProcessor.getCommandHandler.
  rewrite Hv, Hh. simpl. by rewrite Hg.
Qed.

Lemma applied_missing_room (j : job) (w : world) u h :
  commandSchemaValidator (job_command j) = Normal u →
  commandHandlerAt commandHandlers (cmd_name (job_command j)) = Some h →
  getRoomById (w_store w) (cmd_roomId (job_command j)) = Normal None →
  existingRoom h = true →
  run (applied j) w =
    (log (CallGetRoomById (cmd_roomId (job_command j))) w,
     Rejected (new_Error
       ("Command " +:+ dquote +:+ cmd_name (job_command j) +:+ dquote
          +:+ " only want's to get handled for an existing room. ("
          +:+ js_str (cmd_roomId (job_command j)) +:+ ")"))).
Proof.
  intros Hv Hh Hg He.
  unfold CommandProcessor.applied, CommandProcessor.validate, CommandProcessor.getCommandHandler.
  rewrite Hv, Hh. simpl. by rewrite Hg, He.
Qed.

Lemma applied_loaded (j : job) (w : world) u h loaded :
  commandSchemaValidator (job_command j) = Normal u →
  commandHandlerAt commandHandlers (cmd_name (job_command j)) = Some h →
  getRoomById (w_store w) (cmd_roomId (job_command j)) = Normal loaded →
  (loaded = None → existingRoom h = false) →
  let ctx := mkContext (job_userId j) (Some h) (Some (roomFor loaded)) [] [] in
  let w1 := log (CallGetRoomById (cmd_roomId (job_command j))) w in
  run (applied j) w =
    run (preConditions ctx (job_command j)
           THEN (λ ctx, handle ctx (job_command j))
           THEN (λ ctx, applyEvents ctx)) w1
  ∧ run (jobHandler j) w = run (fromPreconditions ctx (job_command j)) w1.
Proof.
  intros Hv Hh Hg He ctx w1.
  assert (run (validate (job_command j)
                 THEN (λ _, settle (getCommandHandler
                                      (mkContext (job_userId j) None None [] [])
                                      (job_command j)))
                 THEN (λ ctx, loadRoom ctx (job_command j))
                 THEN (λ ctx, preConditions ctx (job_command j))) w
          = run (preConditions ctx (job_command j)) w1) as Hpre.
  { apply (run_then_fulfilled _ (λ c, preConditions c (job_command j)) w w1 ctx).
    unfold CommandProcessor.validate, CommandProcessor.getCommandHandler. rewrite Hv, Hh. simpl.
    rewrite Hg. destruct loaded as [r|]; [done|]. by rewrite He. }
  split.
  - unfold CommandProcessor.applied. by do 2 apply run_then_cong.
  - unfold CommandProcessor.jobHandler, CommandProcessor.applied, CommandProcessor.fromPreconditions.
    by do 4 apply run_then_cong.
Qed.

Lemma append_assoc (a b c : string) : (a +:+ b) +:+ c = a +:+ (b +:+ c).
Proof.
  induction a as [|x a IH]; [done|].
  change (String x ((a +:+ b) +:+ c) = String x (a +:+ (b +:+ c))). by f_equal.
Qed.

Lemma append_nil_r (a : string) : a +:+ EmptyString = a.
Proof.
  induction a as [|x a IH]; [done|].
  change (String x (a +:+ EmptyString) = String x a). by f_equal.
Qed.

Lemma includes_intro (before needle after : string) :
  includes needle (before +:+ needle +:+ after).
Proof. by exists before, after. Qed.

(** C2: if any of the stages 1 to 6 fails, that is, if the promise chain
    built from validation, handler lookup, room load, precondition, handler
    execution and event application is rejected with an error [e], then the
    promise of the whole job is rejected with this same [e], [saveRoom] is
    not called (the calls to it in the log are those that were there before)
    and the store is in the state it was in before the job.  When it is the
    schema validator that throws, [e] is what it threw and nothing at all
    was called. *)
Theorem failed_stage_rejects_without_saving (j : job) (w w' : world) (e : error) :
  run (applied j) w = (w', Rejected e) →
  run (jobHandler j) w = (w', Rejected e)
  ∧ saved (w_log w') = saved (w_log w)
  ∧ w_store w' = w_store w
  ∧ match commandSchemaValidator (job_command j) with
    | Abrupt thrown => e = thrown ∧ w' = w
    | Normal _ => True
    end.
Proof.
  intros H. destruct (applied_rejected j w w' e H) as (Hjob & Hsaved & Hstore).
  split_and!; try done.
  destruct (commandSchemaValidator (job_command j)) as [u|thrown] eqn:Hv; [done|].
  rewrite (applied_invalid j w thrown Hv) in H. by injection H as <- <-.
Qed.

(** C4: the room is absent from the store at stage 3 (or present).  If the
    handler declares [existingRoom = true] the job is rejected with the
    missing-room error, and it has done nothing but the lookup: the store is
    untouched and neither a precondition, a handler function, a reducer nor
    [saveRoom] was called.  If the handler does not require the room, the
    context receives a fresh empty map, and if the room is present the
    context receives it as loaded; in both cases every precondition and
    handler function invoked by the job is handed that room, never
    undefined. *)
Theorem absent_room_fails_or_is_synthesized
    (j : job) (w : world) (u : unit) (h : commandHandler) (loaded : option room) :
  let cmd := job_command j in
  let ctx := mkContext (job_userId j) (Some h) None [] [] in
  let w1 := log (CallGetRoomById (cmd_roomId cmd)) w in
  commandSchemaValidator cmd = Normal u →
  commandHandlerAt commandHandlers (cmd_name cmd) = Some h →
  getRoomById (w_store w) (cmd_roomId cmd) = Normal loaded →
  if bool_decide (loaded = None) && existingRoom h then
    run (jobHandler j) w =
      (w1, Rejected (new_Error
             ("Command " +:+ dquote +:+ cmd_name cmd +:+ dquote
                +:+ " only want's to get handled for an existing room. ("
                +:+ js_str (cmd_roomId cmd) +:+ ")")))
    ∧ w_store w1 = w_store w
    ∧ w_log w1 = w_log w ++ [CallGetRoomById (cmd_roomId cmd)]
  else
    let r0 := match loaded with Some r => r | None => ∅ end in
    run (loadRoom ctx cmd) w = (w1, Fulfilled (set_room r0 ctx))
    ∧ ∃ l, w_log (run (jobHandler j) w).1 = w_log w ++ l ∧ Forall (receives r0) l.
Proof.
  intros cmd ctx w1 Hv Hh Hg.
  destruct (bool_decide (loaded = None) && existingRoom h) eqn:E.
  - apply andb_true_iff in E as [E1%bool_decide_eq_true E2]. subst loaded.
    split; [|done].
    destruct (applied_rejected j w w1
                (new_Error ("Command " +:+ dquote +:+ cmd_name cmd +:+ dquote
                  +:+ " only want's to get handled for an existing room. ("
                  +:+ js_str (cmd_roomId cmd) +:+ ")"))) as [H _]; [|done].
    by eapply applied_missing_room.
  - assert (loaded = None → existingRoom h = false) as He.
    { intros ->. by rewrite bool_decide_eq_true_2 in E. }
    split.
    + simpl. fold cmd. rewrite Hg. destruct loaded as [r|]; [done|]. by rewrite He.
    + destruct (applied_loaded j w u h loaded Hv Hh Hg He) as [_ ->].
      fold cmd w1.
      set (ctx2 := mkContext _ _ (Some (roomFor loaded)) _ _).
      destruct (run_log (fromPreconditions ctx2 cmd) w1) as (l & Hl & _ & _ & Hc & _).
      exists (CallGetRoomById (cmd_roomId cmd) :: l). split.
      * rewrite Hl. unfold w1; simpl. by rewrite <- app_assoc.
      * constructor; [done|]. apply Hc.
        apply calls_fromPreconditions with (r0 := roomFor loaded); try done.
        all: by destruct loaded.
Qed.

(** C6: the handler defines a precondition and stages 1 to 3 have passed.
    The precondition is invoked with the room of the context, the command and
    the user id.  If it throws [e], the job is rejected with a
    [PreconditionError] whose message contains the name of the command and
    the message of [e] and whose stack is that of [e]; nothing was called
    after the precondition, in particular not [saveRoom], and the store is
    as it was. *)
Theorem failing_precondition_is_wrapped
    (j : job) (w : world) (u : unit) (h : commandHandler) (loaded : option room)
    (pc : option room → command → option string → completion unit) :
  let cmd := job_command j in
  let r0 := roomFor loaded in
  let invoked := [CallGetRoomById (cmd_roomId cmd);
                  CallPreCondition (Some r0) cmd (job_userId j)] in
  commandSchemaValidator cmd = Normal u →
  commandHandlerAt commandHandlers (cmd_name cmd) = Some h →
  getRoomById (w_store w) (cmd_roomId cmd) = Normal loaded →
  (loaded = None → existingRoom h = false) →
  preCondition h = Some pc →
  (∃ l, w_log (run (jobHandler j) w).1 = w_log w ++ invoked ++ l)
  ∧ ∀ e, pc (Some r0) cmd (job_userId j) = Abrupt e →
      let err := PreconditionError e cmd in
      (run (jobHandler j) w).2 = Rejected err
      ∧ err_name err = "PreconditionError"
      ∧ includes (cmd_name cmd) (err_message err)
      ∧ includes (err_message e) (err_message err)
      ∧ err_stack err = err_stack e
      ∧ w_log (run (jobHandler j) w).1 = w_log w ++ invoked
      ∧ w_store (run (jobHandler j) w).1 = w_store w.
Proof.
  intros cmd r0 invoked Hv Hh Hg He Hpc.
  destruct (applied_loaded j w u h loaded Hv Hh Hg He) as [_ ->].
  fold cmd r0. unfold CommandProcessor.fromPreconditions, preConditions. simpl.
  rewrite Hpc. simpl. split.
  - match goal with |- context [run ?t ?w0] =>
      destruct (run_log t w0) as (l & Hl & _) end.
    exists l. rewrite Hl. simpl. by rewrite <- !app_assoc.
  - intros e Hthrow. rewrite Hthrow. simpl. split_and!; try done.
    + apply (includes_intro ("Precondition Error during " +:+ dquote) (cmd_name cmd)).
    + exists ("Precondition Error during " +:+ dquote +:+ cmd_name cmd +:+ dquote +:+ ": "),
        EmptyString.
      by rewrite append_nil_r, !append_assoc.
    + by rewrite <- !app_assoc.
Qed.

(** *** Stage 5: what the handler function declares *)

Lemma runScript_normal ctx cmd s ctx' :
  runScript ctx cmd s = Normal ctx' →
  returns s = true
  ∧ ∃ q, queued eventHandlers (ctx_userId ctx) cmd q (declared s)
         ∧ ctx' = set_eventHandlingQueue (eventHandlingQueue ctx ++ q) ctx.
Proof.
  revert ctx. induction s as [|e|n p rest IH]; intros ctx; simpl.
  - intros [= <-]. split; [done|]. exists []. split; [constructor|].
    rewrite app_nil_r. by destruct ctx.
  - done.
  - unfold CommandProcessor.applyEvent. destruct (eventHandlerAt eventHandlers n) as [reducer|] eqn:En; [|done].
    intros H. destruct (IH _ H) as (Hret & q & Hq & ->). split; [done|].
    exists (deferredStep reducer (ctx_userId ctx) cmd n p :: q). split.
    + constructor; [by exists reducer | done].
    + simpl. by rewrite <- app_assoc.
Qed.


(** *** Stage 6: the deferred steps, in order *)

Lemma threaded_length r ds rs :
  threaded eventHandlers r ds rs → length rs = length ds.
Proof. induction 1; simpl; congruence. Qed.

Lemma forEach_fulfilled userId cmd q ds :
  queued eventHandlers userId cmd q ds →
  ∀ ctx r (w w' : world) ctx',
    ctx_room ctx = Some r →
    run (forEach q ctx) w = (w', Fulfilled ctx') →
    ∃ rs, threaded eventHandlers r ds rs
      ∧ w' = mkWorld (w_store w) (w_uuids w + length ds) (w_ticks w)
                     (w_log w ++ reducerCalls r ds rs)
      ∧ ctx_userId ctx' = ctx_userId ctx
      ∧ ctx_handler ctx' = ctx_handler ctx
      ∧ ctx_room ctx' = Some (default r (last rs))
      ∧ eventsToSend ctx' =
          eventsToSend ctx ++ eventsFor uuid userId cmd (w_uuids w) ds rs.
Proof.
  induction 1 as [|d [n p] q ds (reducer & Hreg & ->) Hq IH];
    intros ctx r w w' ctx' Hr Hrun.
  - simpl in Hrun. injection Hrun as <- <-. exists []. split_and!; try done.
    + constructor.
    + destruct w; simpl. by rewrite Nat.add_0_r, app_nil_r.
    + simpl. by rewrite app_nil_r.
  - simpl in Hreg, Hrun. rewrite Hr in Hrun. simpl in Hrun.
    destruct (reducer r p) as [r'|e] eqn:Ered; simpl in Hrun; [|done].
    eapply IH in Hrun; [|done].
    destruct Hrun as (rs & Hth & -> & Hu & Hh & Hroom & Hsent). simpl in *.
    exists (r' :: rs). split_and!; try done.
    + by econstructor.
    + f_equal; [lia | by rewrite <- app_assoc].
    + rewrite Hroom, last_cons. by destruct (last rs).
    + by rewrite Hsent, <- app_assoc.
Qed.

(** *** The job that is fulfilled *)

(** Everything that is known of a fulfilled job: the handler [h], what the
    store returned ([loaded]), the rooms [rs] the reducers produced one after
    the other, the events, the room that was saved and the calls made. *)
Lemma jobHandler_fulfilled (j : job) (w w' : world) (events : list event) :
  run (jobHandler j) w = (w', Fulfilled events) →
  let cmd := job_command j in
  ∃ h loaded rs,
    let r0 := roomFor loaded in
    let ds := declared (fn h r0 cmd) in
    let final := stamped (clock (w_ticks w)) (default r0 (last rs)) in
    commandHandlerAt commandHandlers (cmd_name cmd) = Some h
    ∧ getRoomById (w_store w) (cmd_roomId cmd) = Normal loaded
    ∧ threaded eventHandlers r0 ds rs
    ∧ events = eventsFor uuid (job_userId j) cmd (w_uuids w) ds rs
    ∧ saveRoom (w_store w) final = (w_store w', Normal tt)
    ∧ w_uuids w' = w_uuids w + length ds
    ∧ w_ticks w' = S (w_ticks w)
    ∧ w_log w' = w_log w ++ [CallGetRoomById (cmd_roomId cmd)]
                    ++ preConditionCalls h r0 cmd (job_userId j)
                    ++ [CallFn r0 cmd] ++ reducerCalls r0 ds rs
                    ++ [CallSaveRoom final].
Proof.
  intros Hrun cmd.
  destruct (commandSchemaValidator cmd) as [u|e] eqn:Hv; cycle 1.
  { destruct (applied_rejected j w w e) as [H _];
      [by apply applied_invalid | congruence]. }
  destruct (commandHandlerAt commandHandlers (cmd_name cmd)) as [h|] eqn:Hh; cycle 1.
  { edestruct (applied_rejected j w w) as [H _];
      [by eapply applied_no_handler | congruence]. }
  destruct (getRoomById (w_store w) (cmd_roomId cmd)) as [loaded|e] eqn:Hg; cycle 1.
  { edestruct (applied_rejected j w) as [H _];
      [by eapply applied_load_rejected | congruence]. }
  assert (loaded = None → existingRoom h = false) as He.
  { intros ->. destruct (existingRoom h) eqn:E; [|done].
    edestruct (applied_rejected j w) as [H _];
      [by eapply applied_missing_room | congruence]. }
  exists h, loaded.
  destruct (applied_loaded j w u h loaded Hv Hh Hg He) as [_ Heq].
  rewrite Heq in Hrun. clear Heq. fold cmd in Hrun.
  set (r0 := roomFor loaded) in *.
  set (w1 := log (CallGetRoomById (cmd_roomId cmd)) w) in *.
  unfold CommandProcessor.fromPreconditions in Hrun. rewrite !run_then in Hrun.
  (* stage 4 *)
  assert (run (preConditions (mkContext (job_userId j) (Some h) (Some r0) [] []) cmd) w1
          = (mkWorld (w_store w) (w_uuids w) (w_ticks w)
                     (w_log w1 ++ preConditionCalls h r0 cmd (job_userId j)),
             Fulfilled (mkContext (job_userId j) (Some h) (Some r0) [] []))
          ∨ ∃ w2 e, run (preConditions (mkContext (job_userId j) (Some h) (Some r0) [] []) cmd) w1
                    = (w2, Rejected e)) as [Hpre|(w2 & e & Hpre)].
  { unfold preConditions, preConditionCalls. simpl.
    destruct (preCondition h) as [pc|]; simpl.
    - destruct (pc _ _ _); simpl; eauto.
    - left. by rewrite app_nil_r. }
  2: { by rewrite Hpre in Hrun. }
  rewrite Hpre in Hrun. clear Hpre.
  (* stage 5 *)
  unfold CommandProcessor.handle in Hrun. simpl in Hrun.
  destruct (CommandProcessor.runScript eventHandlers _ cmd (fn h r0 cmd)) as [ctx5|e] eqn:Hscript;
    simpl in Hrun; [|done].
  apply runScript_normal in Hscript as (_ & q & Hq & ->). simpl in Hq, Hrun.
  (* stage 6 *)
  unfold applyEvents in Hrun. simpl in Hrun.
  match type of Hrun with
  | context [run (forEach q ?c) ?w0] =>
      destruct (run (forEach q c) w0) as [w6 [ctx6|e]] eqn:Hsteps; [|done]
  end.
  eapply forEach_fulfilled in Hsteps; [|done|done].
  destruct Hsteps as (rs & Hth & -> & Hu6 & Hh6 & Hr6 & Hsent6). simpl in *.
  exists rs.
  (* stage 7 *)
  unfold saveRoomBackToStore in Hrun. rewrite Hr6 in Hrun. simpl in Hrun.
  destruct (saveRoom (w_store w) _) as [s [[]|e]] eqn:Hsave; simpl in Hrun; [|done].
  injection Hrun as <- <-. simpl. rewrite Hsent6.
  split_and!; try done.
  by rewrite <- !app_assoc.
Qed.

Lemma threaded_lookup r0 ds rs :
  threaded eventHandlers r0 ds rs →
  ∀ i n p, ds !! i = Some (n, p) →
    ∃ reducer rin rout,
      eventHandlerAt eventHandlers n = Some reducer
      ∧ (r0 :: rs) !! i = Some rin
      ∧ rs !! i = Some rout
      ∧ reducer rin p = Normal rout
      ∧ reducerCalls r0 ds rs !! i = Some (CallEventHandler n rin p).
Proof.
  induction 1 as [|r n0 p0 reducer r' ds rs Hreg Hred Hth IH]; intros i n p Hi.
  - done.
  - destruct i as [|i]; simpl in *.
    + injection Hi as -> ->. by exists reducer, r, r'.
    + destruct (IH i n p Hi) as (rd & rin & rout & ? & ? & ? & ? & ?).
      by exists rd, rin, rout.
Qed.

Lemma eventsFor_lookup userId cmd k ds rs i n p r :
  ds !! i = Some (n, p) → rs !! i = Some r →
  eventsFor uuid userId cmd k ds rs !! i =
    Some {| ev_id := uuid (k + i);
            ev_userId := userId;
            ev_correlationId := cmd_id cmd;
            ev_name := n;
            ev_roomId := r !! "id";
            ev_payload := p |}.
Proof.
  revert k rs i. induction ds as [|[n0 p0] ds IH]; intros k rs i Hd Hr; [done|].
  destruct rs as [|r' rs]; [done|]. destruct i as [|i]; simpl in *.
  - injection Hd as -> ->. injection Hr as ->. by rewrite Nat.add_0_r.
  - rewrite (IH (S k) rs i Hd Hr). do 3 f_equal. lia.
Qed.

Lemma eventsFor_ids userId cmd k ds rs :
  length rs = length ds →
  ev_id <$> eventsFor uuid userId cmd k ds rs = uuid <$> seq k (length ds).
Proof.
  revert k rs. induction ds as [|[n0 p0] ds IH]; intros k rs Hlen; [done|].
  destruct rs as [|r' rs]; [done|]. simpl in *. f_equal. apply IH. lia.
Qed.

(** C3: the events a fulfilled job resolves with.  There is one per
    declared event, in order; the i-th carries the i-th identifier drawn from
    the generator during the job, the acting user id, the id of the command as
    correlation id, the declared name and payload, and as room id the [id]
    field of the room that results from applying its reducer (the rooms [rs]
    are the successive results, see [threaded]).  The identifiers are drawn
    one after the other from the generator; if the generator never repeats
    itself, they are pairwise distinct. *)
Theorem event_records_of_fulfilled_job (j : job) (w w' : world) (events : list event) :
  run (jobHandler j) w = (w', Fulfilled events) →
  let cmd := job_command j in
  ∃ h loaded rs,
    let r0 := roomFor loaded in
    let ds := declared (fn h r0 cmd) in
    commandHandlerAt commandHandlers (cmd_name cmd) = Some h
    ∧ getRoomById (w_store w) (cmd_roomId cmd) = Normal loaded
    ∧ threaded eventHandlers r0 ds rs
    ∧ length events = length ds
    ∧ (∀ i n p, ds !! i = Some (n, p) →
         ∃ r, rs !! i = Some r
              ∧ events !! i =
                  Some {| ev_id := uuid (w_uuids w + i);
                          ev_userId := job_userId j;
                          ev_correlationId := cmd_id cmd;
                          ev_name := n;
                          ev_roomId := r !! "id";
                          ev_payload := p |})
    ∧ w_uuids w' = w_uuids w + length ds
    ∧ ((∀ a b, uuid a = uuid b → a = b) → NoDup (ev_id <$> events)).
Proof.
  intros Hrun cmd.
  destruct (jobHandler_fulfilled j w w' events Hrun)
    as (h & loaded & rs & Hh & Hg & Hth & -> & _ & Hu & _ & _).
  exists h, loaded, rs. fold cmd in Hth |- *.
  pose proof (threaded_length _ _ _ Hth) as Hlen.
  split_and!; try done.
  - rewrite <- (length_fmap ev_id), eventsFor_ids, length_fmap, length_seq; done.
  - intros i n p Hi.
    destruct (threaded_lookup _ _ _ Hth i n p Hi) as (_ & _ & r & _ & _ & Hr & _).
    exists r. split; [done|]. by apply eventsFor_lookup.
  - intros Hinj. rewrite eventsFor_ids by done.
    apply NoDup_fmap_2; [exact Hinj | apply NoDup_seq].
Qed.

(** C5: the deferred steps of a fulfilled job run in the order in which the
    events were declared and thread the room: the reducer of the i-th event
    is called on the room the (i-1)-th produced, the first one on the room
    the handler function was given, and each call yields the next room.  The
    log shows these reducer calls in that order between the call of the
    handler function and the call of [saveRoom], and the room that is saved
    is the last of these rooms, stamped. *)
Theorem events_applied_in_declaration_order
    (j : job) (w w' : world) (events : list event) :
  run (jobHandler j) w = (w', Fulfilled events) →
  let cmd := job_command j in
  ∃ h loaded rs,
    let r0 := roomFor loaded in
    let ds := declared (fn h r0 cmd) in
    let final := stamped (clock (w_ticks w)) (default r0 (last rs)) in
    commandHandlerAt commandHandlers (cmd_name cmd) = Some h
    ∧ getRoomById (w_store w) (cmd_roomId cmd) = Normal loaded
    ∧ length rs = length ds
    ∧ (∀ i n p, ds !! i = Some (n, p) →
         ∃ reducer rin rout,
           eventHandlerAt eventHandlers n = Some reducer
           ∧ (r0 :: rs) !! i = Some rin
           ∧ rs !! i = Some rout
           ∧ reducer rin p = Normal rout
           ∧ reducerCalls r0 ds rs !! i = Some (CallEventHandler n rin p))
    ∧ w_log w' = w_log w ++ [CallGetRoomById (cmd_roomId cmd)]
                    ++ preConditionCalls h r0 cmd (job_userId j)
                    ++ [CallFn r0 cmd] ++ reducerCalls r0 ds rs
                    ++ [CallSaveRoom final].
Proof.
  intros Hrun cmd.
  destruct (jobHandler_fulfilled j w w' events Hrun)
    as (h & loaded & rs & Hh & Hg & Hth & _ & _ & _ & _ & Hlog).
  exists h, loaded, rs. fold cmd in Hth, Hlog |- *. split_and!; try done.
  - by eapply threaded_length.
  - by apply threaded_lookup.
Qed.


(** *** Stage 7: the stamp *)






(** *** The event loop is in step with the sequential reference *)

Lemma runAll_app (js1 js2 : list job) (w : world) :
  runAll (js1 ++ js2) w = runAll js2 (runAll js1 w).
Proof. revert w. induction js1 as [|j js1 IH]; intros w; simpl; [done | apply IH]. Qed.

Lemma exec_snoc (schedule : list action) (a : action) (p : processor) :
  exec (schedule ++ [a]) p = act (exec schedule p) a.
Proof. unfold CommandProcessor.exec. by rewrite foldl_app. Qed.

Lemma exec_app (s1 s2 : list action) (p : processor) :
  exec (s1 ++ s2) p = exec s2 (exec s1 p).
Proof. unfold CommandProcessor.exec. by rewrite foldl_app. Qed.

Lemma sequentialOutcome_app (js : list job) (j : job) (w : world) (i : nat) :
  i < length js →
  sequentialOutcome (js ++ [j]) w i = sequentialOutcome js w i.
Proof.
  intros Hi. unfold CommandProcessor.sequentialOutcome.
  rewrite lookup_app_l by done. by rewrite take_app_le by lia.
Qed.

Lemma run_progress {A : Type} (k : nat) (t : task A) (w : world) :
  run (progress k t w).1 (progress k t w).2 = run t w.
Proof.
  induction k as [|k IH]; [done|].
  unfold CommandProcessor.progress in *. simpl. by rewrite run_step.
Qed.

Lemma inStep_initial (s : Store) : inStep (mkWorld s 0 0 []) (initial s) 0.
Proof.
  unfold CommandProcessor.inStep; simpl. by split_and!.
Qed.

Lemma inStep_processCommand w0 p n cmd userId :
  inStep w0 p n → inStep w0 (processCommand cmd userId p).1 n.
Proof.
  intros (Hn & Hids & Hprom & Hrun). unfold CommandProcessor.inStep; simpl.
  split_and!.
  - rewrite length_app. lia.
  - intros i j. rewrite lookup_app_Some. intros [Hi|[Hlen Hi]]; [by apply Hids|].
    apply list_lookup_singleton_Some in Hi as [Hi <-]. simpl. lia.
  - intros i. rewrite Hprom. case_decide as Hi; [|done].
    by rewrite sequentialOutcome_app by lia.
  - destruct (p_running p) as [|[j t] [|? ?]]; [| |done].
    + destruct Hrun as (Hq & Hh & Hw). split_and!; [|done|].
      * rewrite Hq. by rewrite drop_app_le by lia.
      * rewrite Hw. by rewrite take_app_le by lia.
    + destruct Hrun as (Hj & Hq & Hh & k & Ht).
      apply lookup_lt_Some in Hj as Hlt.
      split_and!; [by rewrite lookup_app_l | | done |].
      * rewrite Hq. by rewrite drop_app_le by lia.
      * exists k. rewrite Ht. by rewrite take_app_le by lia.
Qed.

(** The final handlers of the only chain in flight have run. *)
Lemma inStep_settle w0 p n j t (o : settled (list event)) :
  inStep w0 p n →
  p_running p = [(j, t)] →
  run t (p_world p) = (p_world p, o) →
  inStep w0 (mkProcessor (nextJob (p_queue p)) [] (p_world p)
                         (<[job_promise j := o]> (p_promises p)) (p_submitted p))
         (S n).
Proof.
  intros (Hn & Hids & Hprom & Hrun) Hp Ho. rewrite Hp in Hrun.
  destruct Hrun as (Hj & Hq & Hh & k & Ht). apply lookup_lt_Some in Hj as Hlt.
  pose proof (Hids _ _ Hj) as Hid.
  pose proof (run_progress k (jobHandler j) (runAll (take n (p_submitted p)) w0)) as Href.
  rewrite <- Ht in Href. simpl in Href. rewrite Ho in Href.
  unfold CommandProcessor.inStep; simpl. split_and!; try done.
  - intros i. rewrite Hid. destruct (decide (i = n)) as [->|Hne].
    + rewrite lookup_insert_eq. rewrite decide_True by lia.
      unfold CommandProcessor.sequentialOutcome. rewrite Hj. simpl. by rewrite <- Href.
    + rewrite lookup_insert_ne by done. rewrite Hprom.
      repeat case_decide; try done; lia.
  - rewrite (take_S_r _ _ _ Hj), runAll_app. simpl. by rewrite <- Href.
Qed.

(** The only chain in flight has performed one more interaction. *)
Lemma inStep_step w0 p n j t :
  inStep w0 p n →
  p_running p = [(j, t)] →
  inStep w0 (mkProcessor (p_queue p) [(j, (step t (p_world p)).1)]
                         (step t (p_world p)).2 (p_promises p) (p_submitted p))
         n.
Proof.
  intros (Hn & Hids & Hprom & Hrun) Hp. rewrite Hp in Hrun.
  destruct Hrun as (Hj & Hq & Hh & k & Ht).
  unfold CommandProcessor.inStep; simpl. split_and!; try done.
  exists (S k). unfold CommandProcessor.progress in *. simpl. rewrite <- Ht. simpl.
  by destruct (step t (p_world p)).
Qed.

(** Resuming the only chain in flight. *)
Lemma resume_only p j t :
  p_running p = [(j, t)] →
  resume 0 p =
    match t with
    | Ret events =>
        mkProcessor (nextJob (p_queue p)) [] (p_world p)
                    (<[job_promise j := Fulfilled events]> (p_promises p))
                    (p_submitted p)
    | Throw err =>
        mkProcessor (nextJob (p_queue p)) [] (p_world p)
                    (<[job_promise j := Rejected err]> (p_promises p))
                    (p_submitted p)
    | _ =>
        mkProcessor (p_queue p) [(j, (step t (p_world p)).1)]
                    (step t (p_world p)).2 (p_promises p) (p_submitted p)
    end.
Proof.
  intros Hp. unfold CommandProcessor.resume. rewrite Hp. simpl.
  destruct t as [a|e|i k|r k|k|k|c k]; simpl; try done.
  by destruct (saveRoom _ _).
Qed.

Lemma resume_none p i : p_running p !! i = None → resume i p = p.
Proof. intros Hi. unfold CommandProcessor.resume. by rewrite Hi. Qed.

Lemma inStep_resume w0 p n i :
  inStep w0 p n → ∃ n', n ≤ n' ∧ inStep w0 (resume i p) n'.
Proof.
  intros Hin. destruct (p_running p) as [|[j t] [|? ?]] eqn:Hp.
  - exists n. split; [lia|]. rewrite resume_none; [done|]. by rewrite Hp.
  - destruct i as [|i].
    + rewrite (resume_only p j t Hp).
      destruct t as [a|e|i k|r k|k|k|c k].
      * exists (S n). split; [lia|]. by eapply inStep_settle.
      * exists (S n). split; [lia|]. by eapply inStep_settle.
      * exists n. split; [lia|]. by apply (inStep_step w0 p n j (GetRoomById i k)).
      * exists n. split; [lia|]. by apply (inStep_step w0 p n j (SaveRoom r k)).
      * exists n. split; [lia|]. by apply (inStep_step w0 p n j (Uuid k)).
      * exists n. split; [lia|]. by apply (inStep_step w0 p n j (GetTime k)).
      * exists n. split; [lia|]. by apply (inStep_step w0 p n j (Trace c k)).
    + exists n. split; [lia|]. rewrite resume_none; [done|]. by rewrite Hp.
  - destruct Hin as (_ & _ & _ & Hrun). by rewrite Hp in Hrun.
Qed.

(** While a chain is in flight the queue hands nothing over: it is waiting
    for the [next] of the job it handed over last. *)
Lemma handOver_in_flight w0 p n j t :
  inStep w0 p n → p_running p = [(j, t)] → handOver p = None.
Proof.
  intros (_ & _ & _ & Hrun) Hp. rewrite Hp in Hrun. destruct Hrun as (_ & _ & Hh & _).
  unfold CommandProcessor.handOver, takeJob. by rewrite Hh.
Qed.

(** With no chain in flight the queue hands over the next submitted job, if
    one is waiting. *)
Lemma handOver_idle w0 p n :
  inStep w0 p n → p_running p = [] →
  match p_submitted p !! n with
  | Some j =>
      handOver p = Some (mkProcessor (mkQueue (drop (S n) (p_submitted p)) true)
                                     [(j, jobHandler j)] (p_world p) (p_promises p)
                                     (p_submitted p))
  | None => handOver p = None
  end.
Proof.
  intros (Hn & _ & _ & Hrun) Hp. rewrite Hp in Hrun. destruct Hrun as (Hq & Hh & _).
  unfold CommandProcessor.handOver, takeJob. rewrite Hh, Hq, Hp.
  destruct (drop n (p_submitted p)) as [|j rest] eqn:Hdrop.
  - apply drop_nil_inv in Hdrop. by rewrite lookup_ge_None_2.
  - assert (p_submitted p !! n = Some j) as Hj.
    { rewrite <- (Nat.add_0_r n), <- lookup_drop. by rewrite Hdrop. }
    rewrite Hj. simpl. do 3 f_equal.
    replace (S n) with (n + 1) by lia. by rewrite <- drop_drop, Hdrop.
Qed.

Lemma inStep_handOver w0 p p' n :
  inStep w0 p n → handOver p = Some p' → inStep w0 p' n.
Proof.
  intros Hin Hp'. destruct (p_running p) as [|[j t] [|? ?]] eqn:Hp.
  - pose proof (handOver_idle w0 p n Hin Hp) as Hidle.
    destruct (p_submitted p !! n) as [j|] eqn:Hj; [|congruence].
    rewrite Hidle in Hp'. injection Hp' as <-.
    destruct Hin as (Hn & Hids & Hprom & Hrun). rewrite Hp in Hrun.
    destruct Hrun as (_ & _ & Hw).
    unfold CommandProcessor.inStep; simpl. split_and!; try done.
    exists 0. by rewrite Hw.
  - by rewrite (handOver_in_flight w0 p n j t Hin Hp) in Hp'.
  - destruct Hin as (_ & _ & _ & Hrun). by rewrite Hp in Hrun.
Qed.

Lemma inStep_tick w0 p n :
  inStep w0 p n → ∃ n', n ≤ n' ∧ inStep w0 (tick p) n'.
Proof.
  intros Hin. unfold CommandProcessor.tick.
  destruct (handOver p) as [p'|] eqn:Hp'.
  - exists n. split; [lia|]. by eapply inStep_handOver.
  - by apply inStep_resume.
Qed.

Lemma inStep_act w0 p n a :
  inStep w0 p n → ∃ n', n ≤ n' ∧ inStep w0 (act p a) n'.
Proof.
  intros Hin. destruct a as [cmd userId| |i]; simpl.
  - exists n. split; [lia|]. by apply inStep_processCommand.
  - by apply inStep_tick.
  - by apply inStep_resume.
Qed.

Lemma inStep_exec_from (w0 : world) (schedule : list action) (p : processor) (n : nat) :
  inStep w0 p n → ∃ n', n ≤ n' ∧ inStep w0 (exec schedule p) n'.
Proof.
  intros Hin. induction schedule as [|a schedule IH] using rev_ind.
  - by exists n.
  - rewrite exec_snoc. destruct IH as (n1 & Hle & IH).
    destruct (inStep_act _ _ _ a IH) as (n2 & Hle2 & H). exists n2. split; [lia|done].
Qed.

Lemma inStep_exec (s : Store) (schedule : list action) :
  ∃ n, inStep (mkWorld s 0 0 []) (exec schedule (initial s)) n.
Proof.
  destruct (inStep_exec_from _ schedule _ _ (inStep_initial s)) as (n & _ & H).
  by exists n.
Qed.

(** C1: commands run one after the other, in the order of submission.
    The process may hold any number of chains in flight, and a schedule
    interleaves submissions, hand-overs by the queue and the turns of the
    chains arbitrarily.  Because the queue hands a job over only when it is
    not waiting for a [next], and [nextJob] is called by the final handlers
    of a chain and nowhere else: (0) at most one chain is in flight, and the
    queue is waiting exactly when one is; (1) when a job has begun, every job
    submitted before it is settled, so the whole chain of the earlier job,
    store round-trips included, lies before the beginning of the later one;
    (2) the job in flight was started in exactly the world that the complete
    runs of all earlier jobs produce, and nothing but its own interactions
    happened since, so its load reads the store as its predecessors' saves
    left it; (3) every settled promise is settled as in the sequential run;
    (4) once the queue is drained the world is that of the sequential run of
    all jobs: no update is lost. *)
Theorem commands_run_one_after_the_other (s : Store) (schedule : list action) :
  let w0 := mkWorld s 0 0 [] in
  let p := exec schedule (initial s) in
  let js := p_submitted p in
  (length (p_running p) ≤ 1
   ∧ (q_handling (p_queue p) = true ↔ length (p_running p) = 1))
  ∧ (∀ a b ja jb, js !! a = Some ja → js !! b = Some jb → a < b →
       begun p jb → is_Some (p_promises p !! job_promise ja))
  ∧ (∀ jb t, (jb, t) ∈ p_running p →
       ∃ k, (t, p_world p)
            = progress k (jobHandler jb) (runAll (take (job_promise jb) js) w0))
  ∧ (∀ i o, p_promises p !! i = Some o → sequentialOutcome js w0 i = Some o)
  ∧ (p_running p = [] → q_jobs (p_queue p) = [] →
       p_world p = runAll js w0
       ∧ ∀ i, i < length js → p_promises p !! i = sequentialOutcome js w0 i).
Proof.
  intros w0 p js. destruct (inStep_exec s schedule) as (n & Hn & Hids & Hprom & Hrun).
  fold p js w0 in Hn, Hids, Hprom, Hrun. split_and!.
  - destruct (p_running p) as [|[j t] [|? ?]]; simpl; [lia | lia | done].
  - destruct (p_running p) as [|[j t] [|? ?]]; simpl; [| |done].
    + destruct Hrun as (_ & -> & _). split; [done | lia].
    + by destruct Hrun as (_ & _ & -> & _).
  - intros a b ja jb Ha Hb Hab Hbegun.
    rewrite (Hids _ _ Ha), Hprom.
    assert (b ≤ n) as Hbn.
    { destruct Hbegun as [[t Ht]|Hsettled].
      - destruct (p_running p) as [|[j t'] [|? ?]]; [by apply elem_of_nil in Ht| |done].
        apply list_elem_of_singleton in Ht as [= <- <-].
        destruct Hrun as (Hj & _). apply Hids in Hj. apply Hids in Hb. lia.
      - rewrite (Hids _ _ Hb), Hprom in Hsettled.
        case_decide; [lia | by destruct Hsettled]. }
    rewrite decide_True by lia. unfold CommandProcessor.sequentialOutcome. rewrite Ha. by eexists.
  - intros jb t Ht.
    destruct (p_running p) as [|[j t'] [|? ?]]; [by apply elem_of_nil in Ht| |done].
    apply list_elem_of_singleton in Ht as [= <- <-].
    destruct Hrun as (Hj & _ & _ & Hk). by rewrite (Hids _ _ Hj).
  - intros i o Ho. rewrite Hprom in Ho. by case_decide.
  - intros Hidle Hempty. rewrite Hidle in Hrun. destruct Hrun as (Hq & _ & Hw).
    rewrite Hempty in Hq. symmetry in Hq. apply drop_nil_inv in Hq.
    assert (n = length js) as -> by lia. rewrite firstn_all in Hw. split; [done|].
    intros i Hi. rewrite Hprom. by rewrite decide_True.
Qed.

(** *** Every submitted command is settled in time *)

Lemma resume_submitted i p : p_submitted (resume i p) = p_submitted p.
Proof.
  unfold CommandProcessor.resume. destruct (p_running p !! i) as [[j t]|]; [|done].
  destruct t as [a|e|x k|r k|k|k|c k]; simpl; try done.
  by destruct (saveRoom _ _).
Qed.

Lemma tick_submitted p : p_submitted (tick p) = p_submitted p.
Proof.
  unfold CommandProcessor.tick, CommandProcessor.handOver.
  destruct (takeJob _) as [[j q]|]; [done|]. apply resume_submitted.
Qed.

Lemma exec_ticks_S k p : exec (replicate (S k) Tick) p = exec (replicate k Tick) (tick p).
Proof. done. Qed.

Lemma exec_ticks_add k1 k2 p :
  exec (replicate (k1 + k2) Tick) p = exec (replicate k2 Tick) (exec (replicate k1 Tick) p).
Proof. by rewrite replicate_add, exec_app. Qed.

(** The job in flight reaches its end and is settled. *)
Lemma finish_job w0 c :
  ∀ p n j t, cost t (p_world p) = c →
    inStep w0 p n → p_running p = [(j, t)] →
    ∃ k, let p' := exec (replicate k Tick) p in
         p_running p' = [] ∧ inStep w0 p' (S n)
         ∧ p_submitted p' = p_submitted p.
Proof.
  induction c as [|c IH]; intros p n j t Hc Hin Hp.
  - exists 1. simpl. unfold CommandProcessor.tick.
    rewrite (handOver_in_flight w0 p n j t Hin Hp), (resume_only p j t Hp).
    apply cost_0 in Hc as [[a ->]|[e ->]]; simpl.
    + split_and!; [done | by eapply inStep_settle | done].
    + split_and!; [done | by eapply inStep_settle | done].
  - pose proof (inStep_step w0 p n j t Hin Hp) as Hin'.
    assert (tick p = mkProcessor (p_queue p) [(j, (step t (p_world p)).1)]
                       (step t (p_world p)).2 (p_promises p) (p_submitted p)) as Htick.
    { unfold CommandProcessor.tick.
      rewrite (handOver_in_flight w0 p n j t Hin Hp), (resume_only p j t Hp).
      destruct t as [a|e|i k|r k|k|k|x k]; simpl in *; done. }
    rewrite <- Htick in Hin'.
    destruct (IH (tick p) n j (step t (p_world p)).1) as (k & Hk); try done.
    + rewrite Htick. simpl. rewrite cost_step, Hc. done.
    + by rewrite Htick.
    + exists (S k). rewrite exec_ticks_S. simpl in *.
      destruct Hk as (? & ? & ->). by rewrite tick_submitted.
Qed.

Lemma drain_idle w0 m :
  ∀ p n, length (p_submitted p) - n = m →
    inStep w0 p n → p_running p = [] →
    ∃ k, let p' := exec (replicate k Tick) p in
         p_running p' = [] ∧ inStep w0 p' (length (p_submitted p))
         ∧ p_submitted p' = p_submitted p.
Proof.
  induction m as [|m IH]; intros p n Hm Hin Hp.
  - exists 0. simpl. destruct Hin as (Hn & Hrest).
    assert (n = length (p_submitted p)) as <- by lia. by split_and!.
  - pose proof (handOver_idle w0 p n Hin Hp) as Hidle.
    destruct (p_submitted p !! n) as [j|] eqn:Hj.
    2: { apply lookup_ge_None in Hj. lia. }
    assert (inStep w0 (tick p) n) as Hin'.
    { unfold CommandProcessor.tick. rewrite Hidle. eapply inStep_handOver; done. }
    assert (p_running (tick p) = [(j, jobHandler j)]) as Hp'.
    { unfold CommandProcessor.tick. by rewrite Hidle. }
    destruct (finish_job w0 _ (tick p) n j (jobHandler j) eq_refl Hin' Hp')
      as (k1 & Hidle1 & Hin1 & Hsub1). simpl in *.
    rewrite tick_submitted in Hsub1.
    destruct (IH (exec (replicate k1 Tick) (tick p)) (S n)) as (k2 & Hidle2 & Hin2 & Hsub2);
      [rewrite Hsub1; lia | done | done |].
    simpl in *. rewrite Hsub1 in Hin2, Hsub2.
    exists (S (k1 + k2)). rewrite exec_ticks_S, exec_ticks_add. by split_and!.
Qed.

(** After enough turns of the event loop nothing is left to do, and every
    promise is settled as in the sequential run. *)
Lemma drain w0 p n :
  inStep w0 p n →
  ∃ k, let p' := exec (replicate k Tick) p in
       p_running p' = [] ∧ inStep w0 p' (length (p_submitted p))
       ∧ p_submitted p' = p_submitted p.
Proof.
  intros Hin. destruct (p_running p) as [|[j t] [|? ?]] eqn:Hp.
  - by eapply drain_idle.
  - destruct (finish_job w0 _ p n j t eq_refl Hin Hp) as (k1 & Hidle1 & Hin1 & Hsub1).
    simpl in *.
    destruct (drain_idle w0 _ _ (S n) eq_refl Hin1 Hidle1) as (k2 & Hidle2 & Hin2 & Hsub2).
    simpl in *. rewrite Hsub1 in Hin2, Hsub2.
    exists (k1 + k2). rewrite exec_ticks_add. by split_and!.
  - destruct Hin as (_ & _ & _ & Hrun). by rewrite Hp in Hrun.
Qed.

Lemma exec_submitted (schedule : list action) (p : processor) :
  ∃ l, p_submitted (exec schedule p) = p_submitted p ++ l.
Proof.
  induction schedule as [|a schedule IH] using rev_ind.
  - exists []. by rewrite app_nil_r.
  - rewrite exec_snoc. destruct IH as [l IH]. destruct a as [cmd userId| |i]; simpl.
    + exists (l ++ [mkJob cmd userId (length (p_submitted (exec schedule p)))]).
      by rewrite IH, app_assoc.
    + exists l. by rewrite tick_submitted.
    + exists l. by rewrite resume_submitted.
Qed.

(** C10: [processCommand] returns a promise, whatever the command: a fresh
    promise that is pending while its job waits in the queue.  Whatever
    happens next ([after]), after enough turns of the event loop that promise
    is settled, and it is settled with the settlement of the chain of its
    job (run in the world its predecessors left).  In particular an exception
    [e] thrown by the schema validator does not leave [processCommand] or the
    job handler: it is the reason the promise is rejected with. *)
Theorem processCommand_returns_a_promise_that_settles
    (s : Store) (before after : list action) (cmd : command) (userId : option string) :
  let w0 := mkWorld s 0 0 [] in
  let p := exec before (initial s) in
  let promise := (processCommand cmd userId p).2 in
  let p1 := (processCommand cmd userId p).1 in
  let j := mkJob cmd userId promise in
  let settlement := (run (jobHandler j) (runAll (p_submitted p) w0)).2 in
  p_promises p1 !! promise = None
  ∧ p_submitted p1 !! promise = Some j
  ∧ (∃ k, p_promises (exec (after ++ replicate k Tick) p1) !! promise = Some settlement)
  ∧ match commandSchemaValidator cmd with
    | Abrupt e => settlement = Rejected e
    | Normal _ => True
    end.
Proof.
  intros w0 p promise p1 j settlement.
  destruct (inStep_exec s before) as (n & Hn & Hids & Hprom & Hrun).
  fold p w0 in Hn, Hids, Hprom, Hrun.
  assert (p_submitted p1 = p_submitted p ++ [j]) as Hsub1 by done.
  split_and!.
  - change (p_promises p !! length (p_submitted p) = None).
    rewrite Hprom. by rewrite decide_False by lia.
  - rewrite Hsub1. change promise with (length (p_submitted p)).
    by rewrite lookup_app_r, Nat.sub_diag.
  - assert (p1 = exec (before ++ [Submit cmd userId]) (initial s)) as Hp1.
    { by rewrite exec_snoc. }
    destruct (exec_submitted after p1) as [l Hl]. rewrite Hsub1 in Hl.
    destruct (inStep_exec s ((before ++ [Submit cmd userId]) ++ after)) as (n2 & Hin2).
    rewrite exec_app, <- Hp1 in Hin2.
    destruct (drain _ _ _ Hin2) as (k & _ & (_ & _ & Hprom' & _) & Hsub').
    simpl in *. exists k. rewrite exec_app, Hprom', Hsub', Hl.
    assert (promise = length (p_submitted p)) as Hpromise by done.
    rewrite decide_True by (rewrite !length_app; simpl; lia).
    unfold CommandProcessor.sequentialOutcome.
    rewrite <- app_assoc, lookup_app_r, Hpromise, Nat.sub_diag by lia. simpl.
    by rewrite take_app_length.
  - destruct (commandSchemaValidator cmd) as [u|e] eqn:Hv; [done|].
    unfold settlement.
    edestruct (applied_rejected j) as [-> _]; [by apply applied_invalid | done].
Qed.

(** *** Stamps over the life of the process *)






(** * Further properties of the pipeline *)

Local Abbreviation ready := (ready commandHandlers commandSchemaValidator getRoomById).

(** *** What the read of a registry finds *)

Lemma commandHandlerAt_None (handlers : gmap string commandHandler) (name : string) :
  commandHandlerAt handlers name = None
  ↔ handlers !! name = None ∧ inherited name = false.
Proof.
  unfold commandHandlerAt. destruct (handlers !! name); [by split; [|intros []]|].
  by destruct (inherited name); split; [|intros []| |].
Qed.

Lemma commandHandlerAt_inherited (handlers : gmap string commandHandler) (name : string) :
  handlers !! name = None → inherited name = true →
  commandHandlerAt handlers name = Some inheritedCommandHandler.
Proof. unfold commandHandlerAt. by intros -> ->. Qed.

Lemma eventHandlerAt_None (handlers : gmap string eventHandler) (name : string) :
  eventHandlerAt handlers name = None
  ↔ handlers !! name = None ∧ inherited name = false.
Proof.
  unfold eventHandlerAt. destruct (handlers !! name); [by split; [|intros []]|].
  by destruct (inherited name); split; [|intros []| |].
Qed.

Lemma eventHandlerAt_registered (handlers : gmap string eventHandler) (name : string)
    (reducer : eventHandler) :
  handlers !! name = Some reducer → eventHandlerAt handlers name = Some reducer.
Proof. unfold eventHandlerAt. by intros ->. Qed.

Lemma eventHandlerAt_inherited (handlers : gmap string eventHandler) (name : string) :
  handlers !! name = None → inherited name = true →
  eventHandlerAt handlers name = Some (inheritedEventHandler name).
Proof. unfold eventHandlerAt. by intros -> ->. Qed.

(** *** Stage 5, forwards *)

Lemma runScript_returns ctx cmd s :
  returns s = true → allRegistered eventHandlers (declared s) →
  ∃ q, queued eventHandlers (ctx_userId ctx) cmd q (declared s)
       ∧ runScript ctx cmd s
           = Normal (set_eventHandlingQueue (eventHandlingQueue ctx ++ q) ctx).
Proof.
  revert ctx. induction s as [|e|n p rest IH]; intros ctx Hret Hreg; simpl in *.
  - exists []. split; [constructor|]. rewrite app_nil_r. by destruct ctx.
  - done.
  - apply Forall_cons in Hreg as [[reducer Hn] Hreg]. simpl in Hn.
    unfold CommandProcessor.applyEvent. rewrite Hn.
    destruct (IH (set_eventHandlingQueue
                    (eventHandlingQueue ctx
                       ++ [deferredStep reducer (ctx_userId ctx) cmd n p]) ctx)
                 Hret Hreg) as (q & Hq & ->).
    exists (deferredStep reducer (ctx_userId ctx) cmd n p :: q). split.
    + constructor; [by exists reducer | done].
    + simpl. by rewrite <- app_assoc.
Qed.

Lemma runScript_raised ctx cmd s e :
  allRegistered eventHandlers (declared s) → raised s = Some e →
  runScript ctx cmd s = Abrupt e.
Proof.
  revert ctx. induction s as [|e0|n p rest IH]; intros ctx Hreg Hraised; simpl in *.
  - done.
  - by injection Hraised as ->.
  - apply Forall_cons in Hreg as [[reducer Hn] Hreg]. simpl in Hn.
    unfold CommandProcessor.applyEvent. rewrite Hn. by apply IH.
Qed.

(** *** Stage 6, forwards *)

Lemma forEach_threaded userId cmd q ds :
  queued eventHandlers userId cmd q ds →
  ∀ ctx r rs (w : world),
    ctx_room ctx = Some r →
    threaded eventHandlers r ds rs →
    run (forEach q ctx) w =
      (mkWorld (w_store w) (w_uuids w + length ds) (w_ticks w)
               (w_log w ++ reducerCalls r ds rs),
       Fulfilled (set_eventsToSend
                    (eventsToSend ctx ++ eventsFor uuid userId cmd (w_uuids w) ds rs)
                    (set_room (default r (last rs)) ctx))).
Proof.
  induction 1 as [|d [n p] q ds (reducer & Hreg & ->) Hq IH];
    intros ctx r rs w Hr Hth.
  - inversion Hth; subst. simpl. rewrite Nat.add_0_r, !app_nil_r.
    destruct w, ctx; simpl in *. by subst.
  - inversion Hth as [|? ? ? reducer' r' ? rs' Hreg' Hred Hth']; subst.
    simpl in Hreg. rewrite Hreg in Hreg'. injection Hreg' as <-.
    simpl. rewrite Hr. simpl. rewrite Hred. simpl.
    erewrite IH; [|done|done]. simpl. f_equal.
    + f_equal; [lia | by rewrite <- app_assoc].
    + rewrite last_cons, <- app_assoc. simpl. by destruct (last rs').
Qed.


(** *** Stages 1 to 5, forwards *)

(** When stages 1 to 4 pass, the job goes on with the handler function, in
    a context that holds the handler and the room, after the lookup and the
    call of the precondition. *)
Lemma ready_run (j : job) (w : world) (h : commandHandler) (loaded : option room) :
  ready j w h loaded →
  let cmd := job_command j in
  let r0 := roomFor loaded in
  let ctx := mkContext (job_userId j) (Some h) (Some r0) [] [] in
  let w2 := mkWorld (w_store w) (w_uuids w) (w_ticks w)
              (w_log w ++ [CallGetRoomById (cmd_roomId cmd)]
                 ++ preConditionCalls h r0 cmd (job_userId j)) in
  run (applied j) w = run (handle ctx cmd THEN (λ ctx, applyEvents ctx)) w2
  ∧ run (jobHandler j) w =
      run (handle ctx cmd THEN (λ ctx, applyEvents ctx)
             THEN (λ ctx, saveRoomBackToStore ctx)
             THEN (λ ctx, Ret (eventsToSend ctx))) w2.
Proof.
  intros (Hv & Hh & Hg & He & Hpc) cmd r0 ctx w2.
  destruct (applied_loaded j w tt h loaded Hv Hh Hg He) as [Ha Hj].
  fold cmd r0 ctx in Ha, Hj.
  set (w1 := log (CallGetRoomById (cmd_roomId cmd)) w) in *.
  assert (run (preConditions ctx cmd) w1 = (w2, Fulfilled ctx)) as Hpre.
  { unfold w2, w1. unfold preConditions, preConditionCalls, log. simpl.
    destruct (preCondition h) as [pc|] eqn:Epc; simpl.
    - specialize (Hpc pc eq_refl). fold cmd r0 in Hpc. rewrite Hpc. simpl.
      unfold log. simpl. by rewrite <- app_assoc.
    - done. }
  assert (run (preConditions ctx cmd THEN (λ ctx, handle ctx cmd)) w1
          = run (handle ctx cmd) w2) as Hhandle.
  { by rewrite run_then, Hpre. }
  split.
  - rewrite Ha. by apply run_then_cong.
  - rewrite Hj. unfold CommandProcessor.fromPreconditions. by do 3 apply run_then_cong.
Qed.

Lemma run_handle (ctx : context) (cmd : command) (h : commandHandler) (r0 : room)
    (w : world) :
  ctx_handler ctx = Some h → ctx_room ctx = Some r0 →
  run (handle ctx cmd) w =
    (log (CallFn r0 cmd) w,
     match runScript (set_eventsToSend [] (set_eventHandlingQueue [] ctx)) cmd
                     (fn h r0 cmd) with
     | Normal ctx' => Fulfilled ctx'
     | Abrupt e => Rejected e
     end).
Proof.
  intros Hh Hr. unfold CommandProcessor.handle. simpl. rewrite Hr, Hh. simpl.
  by destruct (CommandProcessor.runScript _ _ _ _).
Qed.

Ltac log_norm := repeat (progress (rewrite <- ?app_assoc; simpl)).

Lemma threaded_allRegistered r ds rs :
  threaded eventHandlers r ds rs → allRegistered eventHandlers ds.
Proof. induction 1; constructor; [by eexists | done]. Qed.

(** Stages 1 to 6 of a job whose handler function returns, with the world
    they leave. *)
Lemma applied_threaded (j : job) (w : world) (h : commandHandler)
    (loaded : option room) (rs : list room) :
  let cmd := job_command j in
  let r0 := roomFor loaded in
  let ds := declared (fn h r0 cmd) in
  ready j w h loaded →
  returns (fn h r0 cmd) = true →
  threaded eventHandlers r0 ds rs →
  ∃ ctx,
    run (applied j) w =
      (mkWorld (w_store w) (w_uuids w + length ds) (w_ticks w)
         (w_log w ++ [CallGetRoomById (cmd_roomId cmd)]
            ++ preConditionCalls h r0 cmd (job_userId j)
            ++ [CallFn r0 cmd] ++ reducerCalls r0 ds rs),
       Fulfilled ctx)
    ∧ ctx_room ctx = Some (default r0 (last rs))
    ∧ eventsToSend ctx = eventsFor uuid (job_userId j) cmd (w_uuids w) ds rs.
Proof.
  intros cmd r0 ds Hready Hret Hth.
  destruct (ready_run j w h loaded Hready) as [-> _]. fold cmd r0.
  set (ctx := mkContext (job_userId j) (Some h) (Some r0) [] []).
  rewrite run_then, (run_handle ctx cmd h r0) by done.
  change (set_eventsToSend [] (set_eventHandlingQueue [] ctx)) with ctx.
  destruct (runScript_returns ctx cmd (fn h r0 cmd) Hret
              (threaded_allRegistered _ _ _ Hth)) as (q & Hq & ->).
  unfold applyEvents. simpl.
  erewrite forEach_threaded; [|done|done|done]. simpl.
  eexists. split.
  - f_equal. f_equal. by rewrite <- !app_assoc.
  - done.
Qed.

(** X1: a command whose name the read [commandHandlers[name]] finds
    nothing for (no handler is registered under it and it is not the name of
    a member inherited from [Object.prototype]) is rejected with the error
    "No handler found for <name>", and nothing was called for it: the store
    was not even read, the world is as it was.  Under an inherited name
    without a registered handler the read finds the inherited member
    instead: the store is read, and the job is rejected with a TypeError
    when stage 5 calls the [fn] that the member does not have; nothing is
    saved. *)
Theorem unknown_command_is_rejected_untouched (j : job) (w : world) :
  let cmd := job_command j in
  commandSchemaValidator cmd = Normal tt →
  commandHandlers !! cmd_name cmd = None →
  (inherited (cmd_name cmd) = false →
     run (jobHandler j) w
       = (w, Rejected (new_Error ("No handler found for " +:+ cmd_name cmd))))
  ∧ (inherited (cmd_name cmd) = true →
     ∀ loaded, getRoomById (w_store w) (cmd_roomId cmd) = Normal loaded →
       (run (jobHandler j) w).2
         = Rejected (new_TypeError "ctx.handler.fn is not a function")
       ∧ CallGetRoomById (cmd_roomId cmd) ∈ w_log (run (jobHandler j) w).1
       ∧ saved (w_log (run (jobHandler j) w).1) = saved (w_log w)
       ∧ w_store (run (jobHandler j) w).1 = w_store w).
Proof.
  intros cmd Hv Hown. split.
  - intros Hinh. eapply applied_rejected, applied_no_handler; [done|].
    apply commandHandlerAt_None. done.
  - intros Hinh loaded Hg.
    pose proof (commandHandlerAt_inherited commandHandlers _ Hown Hinh) as Hh.
    destruct (applied_loaded j w tt inheritedCommandHandler loaded Hv Hh Hg (λ _, eq_refl))
      as [Happlied _].
    fold cmd in Happlied. rewrite !run_then in Happlied. simpl in Happlied.
    apply applied_rejected in Happlied as (-> & Hsaved & Hstore). simpl.
    split_and!; [done | | done | done].
    set_solver.
Qed.

(** X2: when the store rejects the lookup of the room with an error, the
    job is rejected with that very error; the lookup is the only call made
    (no precondition, no handler function, no save) and the store is in the
    state it was in. *)
Theorem load_rejection_is_passed_on (j : job) (w : world) (h : commandHandler) (e : error) :
  commandSchemaValidator (job_command j) = Normal tt →
  commandHandlerAt commandHandlers (cmd_name (job_command j)) = Some h →
  getRoomById (w_store w) (cmd_roomId (job_command j)) = Abrupt e →
  run (jobHandler j) w =
    (mkWorld (w_store w) (w_uuids w) (w_ticks w)
       (w_log w ++ [CallGetRoomById (cmd_roomId (job_command j))]),
     Rejected e).
Proof.
  intros Hv Hh Hg. eapply applied_rejected, applied_load_rejected; done.
Qed.

(** X3: when the handler function throws after having declared events (all
    of them with a reducer in the registry), the job is rejected with what the
    handler threw, and the declared events are dropped: no reducer is called,
    no identifier is drawn, nothing is saved. *)
Theorem handler_exception_drops_declared_events
    (j : job) (w : world) (h : commandHandler) (loaded : option room) (e : error) :
  let cmd := job_command j in
  let r0 := roomFor loaded in
  ready j w h loaded →
  allRegistered eventHandlers (declared (fn h r0 cmd)) →
  raised (fn h r0 cmd) = Some e →
  run (jobHandler j) w =
    (mkWorld (w_store w) (w_uuids w) (w_ticks w)
       (w_log w ++ [CallGetRoomById (cmd_roomId cmd)]
          ++ preConditionCalls h r0 cmd (job_userId j) ++ [CallFn r0 cmd]),
     Rejected e).
Proof.
  intros cmd r0 Hready Hreg Hraised.
  apply applied_rejected.
  destruct (ready_run j w h loaded Hready) as [-> _]. fold cmd r0.
  set (ctx := mkContext (job_userId j) (Some h) (Some r0) [] []).
  rewrite run_then, (run_handle ctx cmd h r0) by done.
  change (set_eventsToSend [] (set_eventHandlingQueue [] ctx)) with ctx.
  rewrite (runScript_raised ctx cmd _ e Hreg Hraised). unfold log. simpl.
  by rewrite <- !app_assoc.
Qed.


(** X5: when every stage passes (the validator accepts, the registry has a
    handler, the room is loaded or not required, the precondition returns,
    the handler function returns, every reducer returns and the store accepts
    the save), the promise of the job is fulfilled with one event per
    declared event; the store is in the state [saveRoom] left it in when given
    the last room, stamped; exactly one identifier per event and one reading
    of the clock were taken. *)
Theorem passing_stages_fulfil
    (j : job) (w : world) (h : commandHandler) (loaded : option room)
    (rs : list room) (s' : Store) :
  let cmd := job_command j in
  let r0 := roomFor loaded in
  let ds := declared (fn h r0 cmd) in
  let final := stamped (clock (w_ticks w)) (default r0 (last rs)) in
  ready j w h loaded →
  returns (fn h r0 cmd) = true →
  threaded eventHandlers r0 ds rs →
  saveRoom (w_store w) final = (s', Normal tt) →
  run (jobHandler j) w =
    (mkWorld s' (w_uuids w + length ds) (S (w_ticks w))
       (w_log w ++ [CallGetRoomById (cmd_roomId cmd)]
          ++ preConditionCalls h r0 cmd (job_userId j)
          ++ [CallFn r0 cmd] ++ reducerCalls r0 ds rs ++ [CallSaveRoom final]),
     Fulfilled (eventsFor uuid (job_userId j) cmd (w_uuids w) ds rs)).
Proof.
  intros cmd r0 ds final Hready Hret Hth Hsave.
  destruct (applied_threaded j w h loaded rs Hready Hret Hth) as (ctx & Ha & Hr & Hev).
  unfold CommandProcessor.jobHandler. rewrite !run_then, Ha.
  unfold saveRoomBackToStore. rewrite Hr. simpl.
  fold cmd r0 ds. fold (stamped (clock (w_ticks w)) (default r0 (last rs))).
  fold final. rewrite Hsave. simpl. rewrite Hev. unfold log. simpl.
  f_equal. f_equal. log_norm. done.
Qed.

(** X6: when stages 1 to 6 pass and the store rejects the save with [e],
    the job is rejected with [e] and the caller gets no events, although
    every reducer has run; [saveRoom] was called once, with the last room,
    stamped, and the store is in whatever state that call left it in. *)
Theorem save_rejection_is_passed_on
    (j : job) (w : world) (h : commandHandler) (loaded : option room)
    (rs : list room) (s' : Store) (e : error) :
  let cmd := job_command j in
  let r0 := roomFor loaded in
  let ds := declared (fn h r0 cmd) in
  let final := stamped (clock (w_ticks w)) (default r0 (last rs)) in
  ready j w h loaded →
  returns (fn h r0 cmd) = true →
  threaded eventHandlers r0 ds rs →
  saveRoom (w_store w) final = (s', Abrupt e) →
  run (jobHandler j) w =
    (mkWorld s' (w_uuids w + length ds) (S (w_ticks w))
       (w_log w ++ [CallGetRoomById (cmd_roomId cmd)]
          ++ preConditionCalls h r0 cmd (job_userId j)
          ++ [CallFn r0 cmd] ++ reducerCalls r0 ds rs ++ [CallSaveRoom final]),
     Rejected e).
Proof.
  intros cmd r0 ds final Hready Hret Hth Hsave.
  destruct (applied_threaded j w h loaded rs Hready Hret Hth) as (ctx & Ha & Hr & Hev).
  unfold CommandProcessor.jobHandler. rewrite !run_then, Ha.
  unfold saveRoomBackToStore. rewrite Hr. simpl.
  fold cmd r0 ds. fold (stamped (clock (w_ticks w)) (default r0 (last rs))).
  fold final. rewrite Hsave. simpl. unfold log. simpl.
  f_equal. f_equal. log_norm. done.
Qed.

(** X7: a command whose handler function declares no event and returns is
    still saved: the promise is fulfilled with the empty list, and the room
    handed to [saveRoom] is the room the handler was given (the loaded room,
    or the empty map) with [lastActivity] set and every other field as it
    was. *)
Theorem command_without_events_still_saves
    (j : job) (w : world) (h : commandHandler) (loaded : option room) (s' : Store) :
  let cmd := job_command j in
  let r0 := roomFor loaded in
  let final := stamped (clock (w_ticks w)) r0 in
  ready j w h loaded →
  fn h r0 cmd = Return →
  saveRoom (w_store w) final = (s', Normal tt) →
  run (jobHandler j) w =
    (mkWorld s' (w_uuids w) (S (w_ticks w))
       (w_log w ++ [CallGetRoomById (cmd_roomId cmd)]
          ++ preConditionCalls h r0 cmd (job_userId j)
          ++ [CallFn r0 cmd; CallSaveRoom final]),
     Fulfilled [])
  ∧ final !! "lastActivity" = Some (VNum (clock (w_ticks w)))
  ∧ ∀ k, k ≠ "lastActivity" → final !! k = r0 !! k.
Proof.
  intros cmd r0 final Hready Hfn Hsave. split_and!.
  - destruct (applied_threaded j w h loaded [] Hready) as (ctx & Ha & Hr & Hev).
    { fold cmd r0. by rewrite Hfn. }
    { fold cmd r0. rewrite Hfn. constructor. }
    fold cmd r0 in Ha, Hev. rewrite Hfn in Ha, Hev. simpl in Ha, Hr, Hev.
    unfold CommandProcessor.jobHandler. rewrite !run_then, Ha.
    unfold saveRoomBackToStore. rewrite Hr. simpl.
    subst final r0. unfold stamped in *. rewrite Hsave. simpl.
    rewrite Hev. unfold log. simpl. rewrite Nat.add_0_r.
    f_equal. f_equal. log_norm. done.
  - apply lookup_insert_eq.
  - intros k Hk. by apply lookup_insert_ne.
Qed.

(** *** What a job asks of the store *)

(** The calls of stages 1 to 6: none, and then the stages are rejected; or
    the lookup followed by calls that do not go to the store. *)
Lemma applied_calls (j : job) (w : world) :
  ∃ l, w_log (run (applied j) w).1 = w_log w ++ l
       ∧ ((l = [] ∧ ∃ e, (run (applied j) w).2 = Rejected e)
          ∨ ∃ mid, l = CallGetRoomById (cmd_roomId (job_command j)) :: mid
                   ∧ Forall notStore mid).
Proof.
  destruct (commandSchemaValidator (job_command j)) as [[]|e] eqn:Hv; cycle 1.
  { rewrite (applied_invalid j w e Hv). exists []. rewrite app_nil_r. eauto. }
  destruct (commandHandlerAt commandHandlers (cmd_name (job_command j))) as [h|] eqn:Hh; cycle 1.
  { rewrite (applied_no_handler j w tt Hv Hh). exists []. rewrite app_nil_r. eauto. }
  destruct (getRoomById (w_store w) (cmd_roomId (job_command j)))
    as [loaded|e] eqn:Hg; cycle 1.
  { rewrite (applied_load_rejected j w tt h e Hv Hh Hg). eexists. split; [done|].
    right. exists []. by split. }
  destruct (decide (loaded = None ∧ existingRoom h = true)) as [[-> He]|Hne].
  { rewrite (applied_missing_room j w tt h Hv Hh Hg He). eexists. split; [done|].
    right. exists []. by split. }
  assert (loaded = None → existingRoom h = false) as He.
  { intros ->. destruct (existingRoom h); [by destruct Hne | done]. }
  destruct (applied_loaded j w tt h loaded Hv Hh Hg He) as [-> _].
  match goal with |- context [run ?t ?w0] =>
    destruct (run_log t w0) as (l & Hl & _ & _ & Hc & _) end.
  exists (CallGetRoomById (cmd_roomId (job_command j)) :: l). split.
  - rewrite Hl. simpl. by rewrite <- app_assoc.
  - right. exists l. split; [done|]. apply Hc.
    by apply calls_stages_4_6 with (r0 := roomFor loaded).
Qed.

(** X8: a job goes to the store at most twice.  The calls it makes are:
    none at all; or the lookup of [command.roomId] first, then calls that do
    not go to the store, and then possibly one [saveRoom], which is the last
    call.  In particular a job never saves before it has loaded, never loads
    twice and never saves twice. *)
Theorem job_loads_once_and_saves_last (j : job) (w : world) :
  ∃ l, w_log (run (jobHandler j) w).1 = w_log w ++ l
       ∧ (l = []
          ∨ ∃ mid, Forall notStore mid
                   ∧ (l = CallGetRoomById (cmd_roomId (job_command j)) :: mid
                      ∨ ∃ r, l = CallGetRoomById (cmd_roomId (job_command j))
                                   :: mid ++ [CallSaveRoom r])).
Proof.
  destruct (applied_calls j w) as (l1 & Hl1 & Hshape).
  unfold CommandProcessor.jobHandler. rewrite !run_then.
  destruct (run (applied j) w) as [w1 [ctx|e]]; simpl in *.
  2: { exists l1. split; [done|].
       destruct Hshape as [[-> _]|(mid & -> & Hmid)]; eauto. }
  destruct Hshape as [[_ [e He]]|(mid & -> & Hmid)]; [done|].
  unfold saveRoomBackToStore. destruct (ctx_room ctx) as [r|]; simpl.
  2: { eexists. split; [done|]. right. exists mid. eauto. }
  destruct (saveRoom (w_store w1) _) as [s [[]|e]]; simpl.
  all: eexists; rewrite Hl1, <- app_assoc; split; [done|].
  all: right; exists mid; split; [done|]; right; by eexists.
Qed.

(** *** A promise is settled once *)

Lemma sequentialOutcome_more (js l : list job) (w : world) (i : nat) :
  i < length js →
  sequentialOutcome (js ++ l) w i = sequentialOutcome js w i.
Proof.
  intros Hi. unfold CommandProcessor.sequentialOutcome.
  rewrite lookup_app_l by done. by rewrite take_app_le by lia.
Qed.

(** X9: a promise that is settled stays settled the same way: whatever is
    submitted and whatever the event loop does afterwards, the promise of a
    job that was resolved or rejected is not resolved or rejected again with
    something else. *)
Theorem settled_promise_is_final
    (s : Store) (before after : list action) (i : nat) (o : settled (list event)) :
  p_promises (exec before (initial s)) !! i = Some o →
  p_promises (exec (before ++ after) (initial s)) !! i = Some o.
Proof.
  intros Ho. destruct (inStep_exec s before) as (n & Hin).
  destruct (inStep_exec_from _ after _ _ Hin) as (n' & Hle & Hin').
  rewrite <- exec_app in Hin'.
  destruct Hin as (Hn & _ & Hprom & _). destruct Hin' as (_ & _ & Hprom' & _).
  rewrite Hprom in Ho. case_decide as Hi; [|done].
  rewrite Hprom', decide_True by lia.
  destruct (exec_submitted after (exec before (initial s))) as [l Hl].
  rewrite exec_app, Hl, sequentialOutcome_more by lia. done.
Qed.

(** *** Fulfilled only if every stage passed *)

Lemma precondition_rejects (j : job) (w : world) (h : commandHandler)
    (loaded : option room)
    (pc : option room → command → option string → completion unit) (e : error) :
  let cmd := job_command j in
  let r0 := roomFor loaded in
  commandSchemaValidator cmd = Normal tt →
  commandHandlerAt commandHandlers (cmd_name cmd) = Some h →
  getRoomById (w_store w) (cmd_roomId cmd) = Normal loaded →
  (loaded = None → existingRoom h = false) →
  preCondition h = Some pc →
  pc (Some r0) cmd (job_userId j) = Abrupt e →
  run (jobHandler j) w =
    (mkWorld (w_store w) (w_uuids w) (w_ticks w)
       (w_log w ++ [CallGetRoomById (cmd_roomId cmd);
                    CallPreCondition (Some r0) cmd (job_userId j)]),
     Rejected (PreconditionError e cmd)).
Proof.
  intros cmd r0 Hv Hh Hg He Hpc Hthrow. apply applied_rejected.
  destruct (applied_loaded j w tt h loaded Hv Hh Hg He) as [-> _].
  fold cmd r0. rewrite !run_then. unfold preConditions. simpl.
  rewrite Hpc. simpl. rewrite Hthrow. unfold log. simpl. by rewrite <- app_assoc.
Qed.

Lemma jobHandler_fulfilled_ready (j : job) (w w' : world) (events : list event)
    (h : commandHandler) (loaded : option room) :
  let cmd := job_command j in
  run (jobHandler j) w = (w', Fulfilled events) →
  commandHandlerAt commandHandlers (cmd_name cmd) = Some h →
  getRoomById (w_store w) (cmd_roomId cmd) = Normal loaded →
  ready j w h loaded ∧ returns (fn h (roomFor loaded) cmd) = true.
Proof.
  intros cmd Hrun Hh Hg.
  assert (commandSchemaValidator cmd = Normal tt) as Hv.
  { destruct (commandSchemaValidator cmd) as [[]|e] eqn:Hv; [done|].
    destruct (applied_rejected j w w e) as [H _];
      [by apply applied_invalid | congruence]. }
  assert (loaded = None → existingRoom h = false) as He.
  { intros ->. destruct (existingRoom h) eqn:E; [|done].
    edestruct (applied_rejected j w) as [H _];
      [by eapply applied_missing_room | congruence]. }
  assert (ready j w h loaded) as Hready.
  { split_and!; try done. intros pc Hpc.
    destruct (pc _ _ _) as [[]|e] eqn:Hthrow; [done|].
    rewrite (precondition_rejects j w h loaded pc e) in Hrun; done. }
  split; [done|].
  destruct (ready_run j w h loaded Hready) as [_ Heq]. rewrite Heq in Hrun.
  rewrite !run_then, (run_handle _ cmd h (roomFor loaded)) in Hrun by done.
  destruct (runScript _ cmd (fn h (roomFor loaded) cmd)) as [ctx|e] eqn:Hscript;
    [|done].
  by apply runScript_normal in Hscript as [? _].
Qed.

(** X10: a job is fulfilled only if every stage passed: the validator
    accepted the command, the registry has a handler for its name, the store
    answered the lookup with a room or the handler does not require one, the
    precondition (if any) returned, the handler function returned, every
    reducer returned, and the store accepted the save, which leaves the store
    in the state the job ends in. *)
Theorem fulfilled_only_if_every_stage_passed
    (j : job) (w w' : world) (events : list event) :
  run (jobHandler j) w = (w', Fulfilled events) →
  let cmd := job_command j in
  ∃ h loaded rs,
    let r0 := roomFor loaded in
    let ds := declared (fn h r0 cmd) in
    let final := stamped (clock (w_ticks w)) (default r0 (last rs)) in
    ready j w h loaded
    ∧ returns (fn h r0 cmd) = true
    ∧ threaded eventHandlers r0 ds rs
    ∧ saveRoom (w_store w) final = (w_store w', Normal tt).
Proof.
  intros Hrun cmd.
  destruct (jobHandler_fulfilled j w w' events Hrun)
    as (h & loaded & rs & Hh & Hg & Hth & _ & Hsave & _).
  exists h, loaded, rs.
  destruct (jobHandler_fulfilled_ready j w w' events h loaded Hrun Hh Hg) as [Hready Hret].
  by split_and!.
Qed.

(** *** The [setUsername] handler in the pipeline *)

(** X11: when the promise of a [setUsername] command is fulfilled, the room
    was in the store, the sender is the user named by [payload.userId], and
    the caller gets exactly one event: [usernameSet], with the payload of the
    command, the sender as user id, the id of the command as correlation id
    and the id of the room as the [usernameSet] reducer returned it; that
    room, stamped, is what was saved. *)
Theorem fulfilled_setUsername
    (j : job) (w w' : world) (events : list event) :
  let cmd := job_command j in
  commandHandlerAt commandHandlers (cmd_name cmd) = Some setUsername →
  run (jobHandler j) w = (w', Fulfilled events) →
  ∃ r reducer r' payloadUserId,
    getRoomById (w_store w) (cmd_roomId cmd) = Normal (Some r)
    ∧ get_prop (cmd_payload cmd) "userId" = Normal payloadUserId
    ∧ strict_eq (job_userId j) payloadUserId = true
    ∧ eventHandlerAt eventHandlers "usernameSet" = Some reducer
    ∧ reducer r (cmd_payload cmd) = Normal r'
    ∧ events = [ {| ev_id := uuid (w_uuids w);
                    ev_userId := job_userId j;
                    ev_correlationId := cmd_id cmd;
                    ev_name := "usernameSet";
                    ev_roomId := r' !! "id";
                    ev_payload := cmd_payload cmd |} ]
    ∧ saveRoom (w_store w) (stamped (clock (w_ticks w)) r') = (w_store w', Normal tt).
Proof.
  intros cmd Hset Hrun.
  destruct (jobHandler_fulfilled j w w' events Hrun)
    as (h & loaded & rs & Hh & Hg & Hth & Hev & Hsave & _).
  fold cmd in Hh, Hg, Hth, Hev, Hsave. rewrite Hset in Hh. injection Hh as <-.
  destruct (jobHandler_fulfilled_ready j w w' events setUsername loaded Hrun Hset Hg)
    as [(_ & _ & _ & He & Hpc) _].
  destruct loaded as [r|]; [|by specialize (He eq_refl)].
  simpl in Hth. inversion Hth as [|? ? ? reducer r' ? rs' Hreg Hred Hth']; subst.
  inversion Hth'; subst. simpl in *.
  specialize (Hpc _ eq_refl). simpl in Hpc. fold cmd in Hpc.
  destruct (get_prop (cmd_payload cmd) "userId") as [payloadUserId|e] eqn:Hprop; [|done].
  destruct (strict_eq (job_userId j) payloadUserId) eqn:Heq; [|done].
  by exists r, reducer, r', payloadUserId.
Qed.

(** X12: a [setUsername] command without payload does not crash the
    pipeline: reading [payload.userId] throws inside the precondition, the
    job is rejected with a [PreconditionError] that wraps that [TypeError],
    and after the lookup and the precondition nothing else was called. *)
Theorem setUsername_without_payload
    (j : job) (w : world) (r : room) :
  let cmd := job_command j in
  commandSchemaValidator cmd = Normal tt →
  commandHandlerAt commandHandlers (cmd_name cmd) = Some setUsername →
  getRoomById (w_store w) (cmd_roomId cmd) = Normal (Some r) →
  cmd_payload cmd = VUndefined →
  ∃ e, err_name e = "TypeError"
       ∧ run (jobHandler j) w =
           (mkWorld (w_store w) (w_uuids w) (w_ticks w)
              (w_log w ++ [CallGetRoomById (cmd_roomId cmd);
                           CallPreCondition (Some r) cmd (job_userId j)]),
            Rejected (PreconditionError e cmd))
       ∧ err_name (PreconditionError e cmd) = "PreconditionError"
       ∧ err_stack (PreconditionError e cmd) = err_stack e.
Proof.
  intros cmd Hv Hh Hg Hpayload.
  eexists. split; [|split; [|done]].
  2: { eapply (precondition_rejects j w setUsername (Some r)); try done.
       simpl. fold cmd. by rewrite Hpayload. }
  done.
Qed.

End properties.

(** * The [setUsername] handler on its own *)

(** X13: the precondition of [setUsername] lets a known sender pass exactly
    when the payload names that sender: with a payload object, the sender [u]
    passes if [payload.userId] is the string [u] and is otherwise refused
    with "Can only set username for own user!"; a sender without user id
    passes exactly when the payload names nobody.  The room plays no part. *)
Theorem setUsername_precondition_checks_sender
    (pc : option room → command → option string → completion unit)
    (r : option room) (cmd : command) (pm : gmap string value) (u : string) :
  preCondition setUsername = Some pc →
  cmd_payload cmd = VMap pm →
  (pm !! "userId" = Some (VStr u) → pc r cmd (Some u) = Normal tt)
  ∧ (pm !! "userId" ≠ Some (VStr u) →
       pc r cmd (Some u) = Abrupt (new_Error "Can only set username for own user!"))
  ∧ (pc r cmd None = Normal tt
     ↔ pm !! "userId" = None ∨ pm !! "userId" = Some VUndefined).
Proof.
  intros [= <-] Hpayload. rewrite Hpayload. simpl. split_and!.
  - intros ->. simpl. by rewrite bool_decide_eq_true_2.
  - intros Hne. destruct (pm !! "userId") as [[]|] eqn:E; simpl; try done.
    rewrite bool_decide_eq_false_2; [done|]. by intros ->.
  - destruct (pm !! "userId") as [[]|] eqn:E; simpl; split; try done; eauto.
    + by intros [|].
    + by intros [|].
    + by intros [|].
    + by intros [|].
Qed.

(** * The top bar *)

(** X14: the user name the top bar receives is never missing, empty or
    otherwise falsy: it is what the state holds under
    [users/<userId>/username] when that is truthy, and the string "-" in
    every other case; the room id is passed through as it is. *)
Theorem topbar_username_is_never_empty (state : room) :
  let stored := TopBar.getIn (Some (VMap state))
                  [Some (VStr "users"); state !! "userId"; Some (VStr "username")] in
  let p := TopBar.mapStateToProps state in
  TopBar.truthy (TopBar.username p) = true
  ∧ TopBar.username p
      = (if TopBar.truthy stored then stored else Some (VStr "-"))
  ∧ TopBar.roomId p = state !! "roomId".
Proof.
  intros stored p. split_and!; [|done|done].
  subst p stored. unfold TopBar.mapStateToProps, TopBar.or_else.
  cbn [TopBar.username].
  by destruct (TopBar.truthy (TopBar.getIn _ _)) eqn:E.
Qed.

(** X15: for a state that holds the user's entry with a non-empty
    [username] string under [users], keyed by the state's own [userId], the
    top bar receives that name; for a state without [userId], or whose
    [userId] has no entry under [users], it receives "-". *)
Theorem topbar_shows_own_username
    (state users user : room) (u name : string) :
  state !! "users" = Some (VMap users) →
  (state !! "userId" = Some (VStr u) →
   users !! u = Some (VMap user) →
   user !! "username" = Some (VStr name) →
   name ≠ EmptyString →
   TopBar.username (TopBar.mapStateToProps state) = Some (VStr name))
  ∧ (state !! "userId" = None →
     TopBar.username (TopBar.mapStateToProps state) = Some (VStr "-"))
  ∧ (state !! "userId" = Some (VStr u) → users !! u = None →
     TopBar.username (TopBar.mapStateToProps state) = Some (VStr "-")).
Proof.
  intros Husers.
  unfold TopBar.mapStateToProps, TopBar.or_else. simpl. rewrite Husers. split_and!.
  - intros -> Hu Hname Hne. simpl. rewrite Hu, Hname. simpl.
    by rewrite bool_decide_eq_false_2.
  - by intros ->.
  - intros -> Hu. simpl. by rewrite Hu.
Qed.

(** * The client's reducer *)

(** C9: applying the [joinedRoom] event of another user to the state of the
    scenario "someone else joined" puts the new user into [users], keeps the
    fields of the user who was there, and changes no other field of the
    state. *)
Theorem someone_else_joined :
  let modified := Client.joinedRoom Client.startingState Client.someoneElseJoined in
  modified !! "users"
    = Some (VMap {[ "myUserId" := VMap {[ "username" := VStr "tester1" ]};
                    "theNewUser" := VMap ∅ ]})
  ∧ ∀ k, k ≠ "users" → modified !! k = Client.startingState !! k.
Proof.
  intros modified.
  assert (modified
          = <["users" := VMap {[ "myUserId" := VMap {[ "username" := VStr "tester1" ]};
                                 "theNewUser" := VMap ∅ ]}]> Client.startingState) as ->.
  { vm_compute. reflexivity. }
  split.
  - apply lookup_insert_eq.
  - intros k Hk. by apply lookup_insert_ne.
Qed.

(** * The properties on the concrete processor *)

Local Abbreviation demoExec :=
  (exec Demo.commandHandlers Demo.eventHandlers Demo.commandSchemaValidator
        Demo.getRoomById Demo.saveRoom Demo.uuid Demo.clock).

(** After the sixth action of the schedule the first job is in flight,
    between its load and its save, and the two other jobs wait. *)
Example schedule_in_flight :
  let p := demoExec (take 6 Demo.schedule) (initial ∅) in
  (job_promise ∘ fst <$> p_running p) = [0]
  ∧ job_promise <$> q_jobs (p_queue p) = [1; 2]
  ∧ q_handling (p_queue p) = true
  ∧ saved (w_log (p_world p)) = [].
Proof. vm_compute. done. Qed.

(** At the end of the schedule the three promises are settled: the room was
    created, the user was renamed, and the attempt to rename another user was
    rejected. *)
Example schedule_settled :
  let p := demoExec Demo.schedule (initial ∅) in
  p_running p = []
  ∧ q_jobs (p_queue p) = []
  ∧ (fmap ev_name ∘ Demo.events <$> p_promises p !! 0)
      = Some ["roomCreated"; "joinedRoom"]
  ∧ (fmap ev_name ∘ Demo.events <$> p_promises p !! 1) = Some ["usernameSet"]
  ∧ (err_name ∘ Demo.reason <$> p_promises p !! 2) = Some "PreconditionError"
  ∧ stamps (saved (w_log (p_world p)))
      = [Some (VNum 1458000000000); Some (VNum 1458000000001)].
Proof. vm_compute. done. Qed.

(** Without the queue's protocol the chains do interleave, and an update is
    lost: both chains load the room before either has saved it, so the save
    of the second overrides the user name the first had set; run one after
    the other, the two jobs leave both names in the store. *)
Example without_the_queue_an_update_is_lost :
  let p := demoExec Unsequenced.inTurns Unsequenced.bothInFlight in
  let sequential :=
    runAll Demo.commandHandlers Demo.eventHandlers Demo.commandSchemaValidator
           Demo.getRoomById Demo.saveRoom Demo.uuid Demo.clock
           Unsequenced.jobs Demo.world1 in
  length (p_running Unsequenced.bothInFlight) = 2
  ∧ p_running p = []
  ∧ (fmap ev_name ∘ Demo.events <$> p_promises p !! 0) = Some ["usernameSet"]
  ∧ (fmap ev_name ∘ Demo.events <$> p_promises p !! 1) = Some ["usernameSet"]
  ∧ Unsequenced.usernameIn (w_store (p_world p)) "u1" = None
  ∧ Unsequenced.usernameIn (w_store (p_world p)) "u2" = Some (VStr "tester2")
  ∧ Unsequenced.usernameIn (w_store sequential) "u1" = Some (VStr "tester1")
  ∧ Unsequenced.usernameIn (w_store sequential) "u2" = Some (VStr "tester2").
Proof. repeat split; vm_compute; reflexivity. Qed.

(** C7: the design document has [applyEvent] throw for every event name
    without a registered reducer; the code does so only for the names that
    the read [eventHandlers[eventName]] finds nothing for.  For
    [constructor] the read finds [Object], which every plain object
    inherits: whatever the registry, [applyEvent] with that name returns and
    queues a step.  With the reducers of [Demo], none of which is registered
    under that name, a job whose handler declares the event is fulfilled
    with an event record named [constructor], and its room is saved. *)
Theorem unregistered_event_name_is_applied :
  (∀ (eventHandlers : gmap string eventHandler) (ctx : context) (cmd : command)
     (payload : value),
     ∃ queuedStep,
       applyEvent eventHandlers ctx cmd "constructor" payload
         = Normal (set_eventHandlingQueue (eventHandlingQueue ctx ++ [queuedStep]) ctx))
  ∧ let j := mkJob Prototype.cmdConstruct (Some "u1") 1 in
    let cmd := job_command j in
    let out := Prototype.runJob j Demo.world1 in
    Demo.eventHandlers !! "constructor" = None
    ∧ declared (fn Prototype.construct Faults.room1 cmd)
        = [("constructor", cmd_payload cmd)]
    ∧ out.2 = Fulfilled [ {| ev_id := Demo.uuid 2;
                             ev_userId := Some "u1";
                             ev_correlationId := cmd_id cmd;
                             ev_name := "constructor";
                             ev_roomId := Some (VStr "room-1");
                             ev_payload := cmd_payload cmd |} ]
    ∧ saved (w_log out.1)
        = saved (w_log Demo.world1) ++ [stamped (Demo.clock 1) Faults.room1]
    ∧ w_store out.1 !! "room-1" = Some (stamped (Demo.clock 1) Faults.room1).
Proof.
  split.
  - intros eventHandlers ctx cmd payload.
    unfold CommandProcessor.applyEvent, eventHandlerAt.
    destruct (eventHandlers !! "constructor") as [reducer|]; by eexists.
  - repeat split; vm_compute; reflexivity.
Qed.

(** The command that creates the room names no room, and the handler is
    given an empty room; the events carry the id the first reducer set. *)
Example created_room_events :
  let j := mkJob Demo.cmdCreate None 0 in
  cmd_roomId (job_command j) = None
  ∧ ev_roomId <$> Demo.events (Demo.runJob j Demo.world0).2
      = [Some (VStr "room-1"); Some (VStr "room-1")]
  ∧ ev_id <$> Demo.events (Demo.runJob j Demo.world0).2 = ["uuid-0"; "uuid-1"].
Proof. vm_compute. done. Qed.

(** A user tries to set the name of another user: the precondition of
    [setUsername] fails in stage 4. *)
Lemma failed_stage_rejects_without_saving_witness :
  let j := mkJob Demo.cmdForeign (Some "u1") 1 in
  Demo.runJob j Demo.world1
    = ((Demo.runJob j Demo.world1).1, Rejected (Demo.reason (Demo.runJob j Demo.world1).2))
  ∧ saved (w_log (Demo.runJob j Demo.world1).1) = saved (w_log Demo.world1)
  ∧ w_store (Demo.runJob j Demo.world1).1 = w_store Demo.world1
  ∧ match Demo.commandSchemaValidator (job_command j) with
    | Abrupt thrown =>
        Demo.reason (Demo.runJob j Demo.world1).2 = thrown
        ∧ (Demo.runJob j Demo.world1).1 = Demo.world1
    | Normal _ => True
    end.
Proof.
  intros j.
  apply (failed_stage_rejects_without_saving
           Demo.commandHandlers Demo.eventHandlers Demo.commandSchemaValidator
           Demo.getRoomById Demo.saveRoom Demo.uuid Demo.clock
           j Demo.world1 (Demo.runJob j Demo.world1).1
           (Demo.reason (Demo.runJob j Demo.world1).2)).
  vm_compute. reflexivity.
Defined.

(** The room is created: its two events carry the id the first reducer gave
    the room, although the command names no room and the room the handler
    was given is empty. *)
Lemma event_records_of_fulfilled_job_witness :
  let j := mkJob Demo.cmdCreate None 0 in
  let w := Demo.world0 in
  let w' := (Demo.runJob j w).1 in
  let events := Demo.events (Demo.runJob j w).2 in
  let cmd := job_command j in
  ∃ h loaded rs,
    let r0 := roomFor loaded in
    let ds := declared (fn h r0 cmd) in
    commandHandlerAt Demo.commandHandlers (cmd_name cmd) = Some h
    ∧ Demo.getRoomById (w_store w) (cmd_roomId cmd) = Normal loaded
    ∧ threaded Demo.eventHandlers r0 ds rs
    ∧ length events = length ds
    ∧ (∀ i n p, ds !! i = Some (n, p) →
         ∃ r, rs !! i = Some r
              ∧ events !! i =
                  Some {| ev_id := Demo.uuid (w_uuids w + i);
                          ev_userId := job_userId j;
                          ev_correlationId := cmd_id cmd;
                          ev_name := n;
                          ev_roomId := r !! "id";
                          ev_payload := p |})
    ∧ w_uuids w' = w_uuids w + length ds
    ∧ ((∀ a b, Demo.uuid a = Demo.uuid b → a = b) → NoDup (ev_id <$> events)).
Proof.
  intros j w w' events.
  apply (event_records_of_fulfilled_job
           Demo.commandHandlers Demo.eventHandlers Demo.commandSchemaValidator
           Demo.getRoomById Demo.saveRoom Demo.uuid Demo.clock j w w' events).
  vm_compute. reflexivity.
Defined.

(** The command is sent for a room the store does not hold (any more), to
    a handler that wants an existing room. *)
Lemma absent_room_fails_or_is_synthesized_witness :
  let j := mkJob Demo.cmdStale (Some "u1") 1 in
  let w := Demo.world1 in
  let w1 := log (CallGetRoomById (Some "gone")) w in
  Demo.runJob j w =
    (w1, Rejected (new_Error
           ("Command " +:+ dquote +:+ "setUsername" +:+ dquote
              +:+ " only want's to get handled for an existing room. ("
              +:+ "gone" +:+ ")")))
  ∧ w_store w1 = w_store w
  ∧ w_log w1 = w_log w ++ [CallGetRoomById (Some "gone")].
Proof.
  intros j w w1.
  apply (absent_room_fails_or_is_synthesized
           Demo.commandHandlers Demo.eventHandlers Demo.commandSchemaValidator
           Demo.getRoomById Demo.saveRoom Demo.uuid Demo.clock
           j w tt setUsername None); reflexivity.
Defined.

(** The two events of the room creation: the second reducer is called on
    the room the first one produced. *)
Lemma events_applied_in_declaration_order_witness :
  let j := mkJob Demo.cmdCreate None 0 in
  let w := Demo.world0 in
  let w' := (Demo.runJob j w).1 in
  let cmd := job_command j in
  ∃ h loaded rs,
    let r0 := roomFor loaded in
    let ds := declared (fn h r0 cmd) in
    let final := stamped (Demo.clock (w_ticks w)) (default r0 (last rs)) in
    commandHandlerAt Demo.commandHandlers (cmd_name cmd) = Some h
    ∧ Demo.getRoomById (w_store w) (cmd_roomId cmd) = Normal loaded
    ∧ length rs = length ds
    ∧ (∀ i n p, ds !! i = Some (n, p) →
         ∃ reducer rin rout,
           eventHandlerAt Demo.eventHandlers n = Some reducer
           ∧ (r0 :: rs) !! i = Some rin
           ∧ rs !! i = Some rout
           ∧ reducer rin p = Normal rout
           ∧ reducerCalls r0 ds rs !! i = Some (CallEventHandler n rin p))
    ∧ w_log w' = w_log w ++ [CallGetRoomById (cmd_roomId cmd)]
                    ++ preConditionCalls h r0 cmd (job_userId j)
                    ++ [CallFn r0 cmd] ++ reducerCalls r0 ds rs
                    ++ [CallSaveRoom final].
Proof.
  intros j w w'.
  apply (events_applied_in_declaration_order
           Demo.commandHandlers Demo.eventHandlers Demo.commandSchemaValidator
           Demo.getRoomById Demo.saveRoom Demo.uuid Demo.clock
           j w w' (Demo.events (Demo.runJob j w).2)).
  vm_compute. reflexivity.
Defined.

(** A user tries to set the name of another user. *)
Lemma failing_precondition_is_wrapped_witness :
  let j := mkJob Demo.cmdForeign (Some "u1") 1 in
  let w := Demo.world1 in
  let cmd := job_command j in
  let r0 := roomFor Demo.room1 in
  let pc := default (λ _ _ _, Normal tt) (preCondition setUsername) in
  let invoked := [CallGetRoomById (cmd_roomId cmd);
                  CallPreCondition (Some r0) cmd (job_userId j)] in
  (∃ l, w_log (Demo.runJob j w).1 = w_log w ++ invoked ++ l)
  ∧ ∀ e, pc (Some r0) cmd (job_userId j) = Abrupt e →
      let err := PreconditionError e cmd in
      (Demo.runJob j w).2 = Rejected err
      ∧ err_name err = "PreconditionError"
      ∧ includes (cmd_name cmd) (err_message err)
      ∧ includes (err_message e) (err_message err)
      ∧ err_stack err = err_stack e
      ∧ w_log (Demo.runJob j w).1 = w_log w ++ invoked
      ∧ w_store (Demo.runJob j w).1 = w_store w.
Proof.
  intros j w cmd r0 pc invoked.
  apply (failing_precondition_is_wrapped
           Demo.commandHandlers Demo.eventHandlers Demo.commandSchemaValidator
           Demo.getRoomById Demo.saveRoom Demo.uuid Demo.clock
           j w tt setUsername Demo.room1 pc).
  - reflexivity.
  - reflexivity.
  - reflexivity.
  - intros H. vm_compute in H. discriminate H.
  - reflexivity.
Defined.



(** * The further properties on concrete processors *)

Ltac concrete_ready :=
  split_and!;
  [ reflexivity | reflexivity | reflexivity
  | first [ intros _; reflexivity | intros H; vm_compute in H; discriminate H ]
  | intros pc Hpc;
    first [ discriminate Hpc | injection Hpc as <-; vm_compute; reflexivity ] ].

(** Nobody registered a handler for "dance", and no plain object has a
    member of that name. *)
Lemma unknown_command_is_rejected_untouched_witness :
  let j := mkJob Faults.cmdUnknown (Some "u1") 1 in
  Faults.commandHandlers !! "dance" = None
  ∧ inherited "dance" = false
  ∧ Faults.runJob j Demo.world1
      = (Demo.world1, Rejected (new_Error ("No handler found for " +:+ "dance"))).
Proof.
  intros j. split; [reflexivity|]. split; [reflexivity|].
  apply (unknown_command_is_rejected_untouched
           Faults.commandHandlers Demo.eventHandlers Demo.commandSchemaValidator
           Demo.getRoomById Demo.saveRoom Demo.uuid Demo.clock
           j Demo.world1); reflexivity.
Defined.

(** A command named "constructor", for which nobody registered a handler:
    the room is looked up, the job fails in stage 5, nothing is saved. *)
Example command_named_after_an_inherited_member :
  let j := mkJob Prototype.cmdConstructor (Some "u1") 1 in
  let out := Prototype.runJob j Demo.world1 in
  Prototype.commandHandlers !! "constructor" = None
  ∧ out.2 = Rejected (new_TypeError "ctx.handler.fn is not a function")
  ∧ w_log out.1 = w_log Demo.world1
                    ++ [CallGetRoomById (Some "room-1");
                        CallFn Faults.room1 Prototype.cmdConstructor]
  ∧ w_store out.1 = w_store Demo.world1.
Proof. repeat split; vm_compute; reflexivity. Qed.

(** The store has lost its connection when the room is looked up. *)
Lemma load_rejection_is_passed_on_witness :
  let j := mkJob Demo.cmdRename (Some "u1") 1 in
  let w := Demo.world1 in
  run Faults.getRoomById Demo.saveRoom Demo.uuid Demo.clock
      (jobHandler Demo.commandHandlers Demo.eventHandlers Demo.commandSchemaValidator j) w
    = (mkWorld (w_store w) (w_uuids w) (w_ticks w)
         (w_log w ++ [CallGetRoomById (Some "room-1")]),
       Rejected (new_Error "connection lost")).
Proof.
  intros j w.
  apply (load_rejection_is_passed_on
           Demo.commandHandlers Demo.eventHandlers Demo.commandSchemaValidator
           Faults.getRoomById Demo.saveRoom Demo.uuid Demo.clock
           j w setUsername (new_Error "connection lost")); reflexivity.
Defined.

(** The handler declares [usernameSet] and then gives up. *)
Lemma handler_exception_drops_declared_events_witness :
  let j := mkJob Faults.cmdGiveUp (Some "u1") 1 in
  let w := Demo.world1 in
  let cmd := job_command j in
  let r0 := roomFor Demo.room1 in
  Faults.runJob j w
    = (mkWorld (w_store w) (w_uuids w) (w_ticks w)
         (w_log w ++ [CallGetRoomById (cmd_roomId cmd)]
            ++ preConditionCalls Faults.giveUp r0 cmd (job_userId j)
            ++ [CallFn r0 cmd]),
       Rejected (new_Error "giving up")).
Proof.
  intros j w cmd r0.
  apply (handler_exception_drops_declared_events
           Faults.commandHandlers Demo.eventHandlers Demo.commandSchemaValidator
           Demo.getRoomById Demo.saveRoom Demo.uuid Demo.clock
           j w Faults.giveUp Demo.room1 (new_Error "giving up")).
  - concrete_ready.
  - repeat constructor. by eexists.
  - reflexivity.
Defined.


(** The user renames himself: every stage passes. *)
Lemma passing_stages_fulfil_witness :
  let j := mkJob Demo.cmdRename (Some "u1") 1 in
  let w := Demo.world1 in
  let cmd := job_command j in
  let r0 := roomFor Demo.room1 in
  let ds := declared (fn setUsername r0 cmd) in
  let rs := [Faults.renamed cmd] in
  let final := stamped (Demo.clock (w_ticks w)) (default r0 (last rs)) in
  Demo.runJob j w
    = (mkWorld (Demo.saveRoom (w_store w) final).1 (w_uuids w + length ds) (S (w_ticks w))
         (w_log w ++ [CallGetRoomById (cmd_roomId cmd)]
            ++ preConditionCalls setUsername r0 cmd (job_userId j)
            ++ [CallFn r0 cmd] ++ reducerCalls r0 ds rs ++ [CallSaveRoom final]),
       Fulfilled (eventsFor Demo.uuid (job_userId j) cmd (w_uuids w) ds rs)).
Proof.
  intros j w cmd r0 ds rs final.
  apply (passing_stages_fulfil
           Demo.commandHandlers Demo.eventHandlers Demo.commandSchemaValidator
           Demo.getRoomById Demo.saveRoom Demo.uuid Demo.clock
           j w setUsername Demo.room1 rs (Demo.saveRoom (w_store w) final).1).
  - concrete_ready.
  - reflexivity.
  - eapply threaded_cons; [reflexivity | vm_compute; reflexivity | constructor].
  - vm_compute. reflexivity.
Defined.

(** A command that touches no room: the empty room has no id, and the
    in-memory store refuses to save it. *)
Lemma save_rejection_is_passed_on_witness :
  let j := mkJob Faults.cmdTouchNowhere (Some "u1") 1 in
  let w := Demo.world1 in
  let cmd := job_command j in
  let final := stamped (Demo.clock (w_ticks w)) ∅ in
  Faults.runJob j w
    = (mkWorld (w_store w) (w_uuids w + 0) (S (w_ticks w))
         (w_log w ++ [CallGetRoomById (cmd_roomId cmd)]
            ++ preConditionCalls Faults.touch ∅ cmd (job_userId j)
            ++ [CallFn ∅ cmd] ++ reducerCalls ∅ [] [] ++ [CallSaveRoom final]),
       Rejected (new_Error "room has no id")).
Proof.
  intros j w cmd final.
  apply (save_rejection_is_passed_on
           Faults.commandHandlers Demo.eventHandlers Demo.commandSchemaValidator
           Demo.getRoomById Demo.saveRoom Demo.uuid Demo.clock
           j w Faults.touch None [] (w_store w) (new_Error "room has no id")).
  - concrete_ready.
  - reflexivity.
  - constructor.
  - reflexivity.
Defined.

(** A command that touches the room without declaring anything. *)
Lemma command_without_events_still_saves_witness :
  let j := mkJob Faults.cmdTouch (Some "u1") 1 in
  let w := Demo.world1 in
  let cmd := job_command j in
  let r0 := roomFor Demo.room1 in
  let final := stamped (Demo.clock (w_ticks w)) r0 in
  Faults.runJob j w
    = (mkWorld (Demo.saveRoom (w_store w) final).1 (w_uuids w) (S (w_ticks w))
         (w_log w ++ [CallGetRoomById (cmd_roomId cmd)]
            ++ preConditionCalls Faults.touch r0 cmd (job_userId j)
            ++ [CallFn r0 cmd; CallSaveRoom final]),
       Fulfilled [])
  ∧ final !! "lastActivity" = Some (VNum (Demo.clock (w_ticks w)))
  ∧ ∀ k, k ≠ "lastActivity" → final !! k = r0 !! k.
Proof.
  intros j w cmd r0 final.
  apply (command_without_events_still_saves
           Faults.commandHandlers Demo.eventHandlers Demo.commandSchemaValidator
           Demo.getRoomById Demo.saveRoom Demo.uuid Demo.clock
           j w Faults.touch Demo.room1 (Demo.saveRoom (w_store w) final).1).
  - concrete_ready.
  - reflexivity.
  - vm_compute. reflexivity.
Defined.

(** The promise of the room creation, settled at the end of the schedule,
    is the same after another command has been submitted and processed. *)
Lemma settled_promise_is_final_witness :
  let after := [Submit Demo.cmdKick (Some "u1")] ++ replicate 8 Tick in
  let o := default (Fulfilled [])
             (p_promises (demoExec Demo.schedule (initial ∅)) !! 0) in
  p_promises (demoExec (Demo.schedule ++ after) (initial ∅)) !! 0 = Some o.
Proof.
  intros after o.
  apply (settled_promise_is_final
           Demo.commandHandlers Demo.eventHandlers Demo.commandSchemaValidator
           Demo.getRoomById Demo.saveRoom Demo.uuid Demo.clock
           ∅ Demo.schedule after 0 o).
  vm_compute. reflexivity.
Defined.

(** The room creation is fulfilled: every stage passed. *)
Lemma fulfilled_only_if_every_stage_passed_witness :
  let j := mkJob Demo.cmdCreate None 0 in
  let w := Demo.world0 in
  let w' := (Demo.runJob j w).1 in
  let cmd := job_command j in
  ∃ h loaded rs,
    let r0 := roomFor loaded in
    let ds := declared (fn h r0 cmd) in
    let final := stamped (Demo.clock (w_ticks w)) (default r0 (last rs)) in
    ready Demo.commandHandlers Demo.commandSchemaValidator Demo.getRoomById j w h loaded
    ∧ returns (fn h r0 cmd) = true
    ∧ threaded Demo.eventHandlers r0 ds rs
    ∧ Demo.saveRoom (w_store w) final = (w_store w', Normal tt).
Proof.
  intros j w w'.
  apply (fulfilled_only_if_every_stage_passed
           Demo.commandHandlers Demo.eventHandlers Demo.commandSchemaValidator
           Demo.getRoomById Demo.saveRoom Demo.uuid Demo.clock
           j w w' (Demo.events (Demo.runJob j w).2)).
  vm_compute. reflexivity.
Defined.

(** The user renames himself. *)
Lemma fulfilled_setUsername_witness :
  let j := mkJob Demo.cmdRename (Some "u1") 1 in
  let w := Demo.world1 in
  let w' := (Demo.runJob j w).1 in
  let events := Demo.events (Demo.runJob j w).2 in
  let cmd := job_command j in
  ∃ r reducer r' payloadUserId,
    Demo.getRoomById (w_store w) (cmd_roomId cmd) = Normal (Some r)
    ∧ get_prop (cmd_payload cmd) "userId" = Normal payloadUserId
    ∧ strict_eq (job_userId j) payloadUserId = true
    ∧ eventHandlerAt Demo.eventHandlers "usernameSet" = Some reducer
    ∧ reducer r (cmd_payload cmd) = Normal r'
    ∧ events = [ {| ev_id := Demo.uuid (w_uuids w);
                    ev_userId := job_userId j;
                    ev_correlationId := cmd_id cmd;
                    ev_name := "usernameSet";
                    ev_roomId := r' !! "id";
                    ev_payload := cmd_payload cmd |} ]
    ∧ Demo.saveRoom (w_store w) (stamped (Demo.clock (w_ticks w)) r')
        = (w_store w', Normal tt).
Proof.
  intros j w w' events.
  apply (fulfilled_setUsername
           Demo.commandHandlers Demo.eventHandlers Demo.commandSchemaValidator
           Demo.getRoomById Demo.saveRoom Demo.uuid Demo.clock j w w' events).
  - reflexivity.
  - vm_compute. reflexivity.
Defined.

(** A [setUsername] command that carries no payload. *)
Lemma setUsername_without_payload_witness :
  let j := mkJob Faults.cmdNoPayload (Some "u1") 1 in
  let w := Demo.world1 in
  let cmd := job_command j in
  let r := roomFor Demo.room1 in
  ∃ e, err_name e = "TypeError"
       ∧ Faults.runJob j w =
           (mkWorld (w_store w) (w_uuids w) (w_ticks w)
              (w_log w ++ [CallGetRoomById (cmd_roomId cmd);
                           CallPreCondition (Some r) cmd (job_userId j)]),
            Rejected (PreconditionError e cmd))
       ∧ err_name (PreconditionError e cmd) = "PreconditionError"
       ∧ err_stack (PreconditionError e cmd) = err_stack e.
Proof.
  intros j w cmd r.
  apply (setUsername_without_payload
           Faults.commandHandlers Demo.eventHandlers Demo.commandSchemaValidator
           Demo.getRoomById Demo.saveRoom Demo.uuid Demo.clock j w r).
  - reflexivity.
  - reflexivity.
  - vm_compute. reflexivity.
  - reflexivity.
Defined.

(** The payload of the rename command names the user "u1". *)
Lemma setUsername_precondition_checks_sender_witness :
  let pc := default (λ _ _ _, Normal tt) (preCondition setUsername) in
  let pm : gmap string value :=
    {[ "userId" := VStr "u1"; "username" := VStr "tester1" ]} in
  let cmd := Demo.cmdRename in
  (pm !! "userId" = Some (VStr "u1") → pc None cmd (Some "u1") = Normal tt)
  ∧ (pm !! "userId" ≠ Some (VStr "u1") →
       pc None cmd (Some "u1")
         = Abrupt (new_Error "Can only set username for own user!"))
  ∧ (pc None cmd None = Normal tt
     ↔ pm !! "userId" = None ∨ pm !! "userId" = Some VUndefined).
Proof.
  intros pc pm cmd.
  apply (setUsername_precondition_checks_sender pc None cmd pm "u1"); reflexivity.
Defined.

(** The state of the scenario "someone else joined": the top bar shows
    "tester1". *)
Lemma topbar_shows_own_username_witness :
  let state := Client.startingState in
  let user : gmap string value := {[ "username" := VStr "tester1" ]} in
  (state !! "userId" = Some (VStr "myUserId") →
   Faults.users !! "myUserId" = Some (VMap user) →
   user !! "username" = Some (VStr "tester1") →
   "tester1" ≠ EmptyString →
   TopBar.username (TopBar.mapStateToProps state) = Some (VStr "tester1"))
  ∧ (state !! "userId" = None →
     TopBar.username (TopBar.mapStateToProps state) = Some (VStr "-"))
  ∧ (state !! "userId" = Some (VStr "myUserId") → Faults.users !! "myUserId" = None →
     TopBar.username (TopBar.mapStateToProps state) = Some (VStr "-")).
Proof.
  intros state user.
  apply (topbar_shows_own_username state Faults.users user "myUserId" "tester1").
  reflexivity.
Defined.
